(** * compare-csv.js: parser, comparator and exit codes

    A shallow embedding of [src/compare-csv.js] and the properties its
    specification states about it.

    - JavaScript strings are sequences of UTF-16 code units; a code unit is
      an [N] and a string a [list] of them, so that [line[i]], [+=] and
      [===] on strings are list lookup, append and equality.
    - Arrays are lists; [a[i]] is stdpp's lookup [a !! i], which is [None]
      where JavaScript yields [undefined].
    - The [for] loops are left folds of the loop body over the indices
      [0 .. n-1], the mutated variables being the accumulator.
    - [main] runs in a small completion monad (normal return, thrown
      exception, [process.exit]) over a record of the host functions it
      calls ([fs], [path], [Date]).
    - Console output is not part of the model. *)

From Stdlib Require Import NArith Strings.String Strings.Ascii Numbers.DecimalString.
From stdpp Require Import base numbers list sorting.

(** ** Strings *)

Abbreviation char := N (only parsing).
Abbreviation jsstring := (list char) (only parsing).

(** A string literal of the source (ASCII only) as code units. *)
Definition str (s : string) : jsstring :=
  map N_of_ascii (list_ascii_of_string s).

Local Open Scope N_scope.

Definition QUOTE : char := 34.
Definition COMMA : char := 44.
Definition NEWLINE : char := 10.

(** The code units [String.prototype.trim] strips: ECMAScript's WhiteSpace
    (TAB, VT, FF, ZWNBSP and the space separators) and LineTerminator
    (LF, CR, LS, PS). *)
Definition isWhiteSpace (c : char) : bool :=
  (c =? 9) || (c =? 10) || (c =? 11) || (c =? 12) || (c =? 13) ||
  (c =? 32) || (c =? 160) || (c =? 5760) ||
  ((8192 <=? c) && (c <=? 8202)) ||
  (c =? 8232) || (c =? 8233) || (c =? 8239) || (c =? 8287) ||
  (c =? 12288) || (c =? 65279).

Local Close Scope N_scope.

Fixpoint trimStart (s : jsstring) : jsstring :=
  match s with
  | [] => []
  | c :: s' => if isWhiteSpace c then trimStart s' else s
  end.

Definition trimEnd (s : jsstring) : jsstring :=
  reverse (trimStart (reverse s)).

(** [s.trim()] *)
Definition trim (s : jsstring) : jsstring := trimEnd (trimStart s).

(** [s.split(sep)] for a separator of one code unit: the pieces between
    the occurrences of [sep]; never an empty array. *)
Fixpoint split (sep : char) (s : jsstring) : list jsstring :=
  match s with
  | [] => [[]]
  | c :: s' =>
      if (c =? sep)%N then [] :: split sep s'
      else match split sep s' with
           | piece :: pieces => (c :: piece) :: pieces
           | [] => [[c]]
           end
  end.

(** [a.join(sep)] on an array of strings. *)
Fixpoint join (sep : jsstring) (a : list jsstring) : jsstring :=
  match a with
  | [] => []
  | [s] => s
  | s :: a' => s ++ sep ++ join sep a'
  end.

(** ** parseCSV *)

Abbreviation Row := (list jsstring) (only parsing).
Abbreviation Table := (list Row) (only parsing).

(** The variables of the per-line loop. *)
Record ScanState := mkScan {
  result : Row;
  current : jsstring;
  inQuotes : bool
}.

Definition scanInit : ScanState := mkScan [] [] false.

(** One iteration of [for (let i = 0; i < line.length; i++)].  Past the
    end [line[i]] is [undefined], which is neither a quote nor a comma and
    which [+=] appends as text; the loop bound keeps [i] in range. *)
Definition scanStep (line : jsstring) (st : ScanState) (i : nat) : ScanState :=
  match line !! i with
  | Some char =>
      if (char =? QUOTE)%N then
        mkScan (result st) (current st) (negb (inQuotes st))
      else if (char =? COMMA)%N && negb (inQuotes st) then
        mkScan (result st ++ [trim (current st)]) [] (inQuotes st)
      else
        mkScan (result st) (current st ++ [char]) (inQuotes st)
  | None =>
      mkScan (result st) (current st ++ str "undefined") (inQuotes st)
  end.

(** The callback of [lines.map]. *)
Definition parseLine (line : jsstring) : Row :=
  let st := foldl (scanStep line) scanInit (seq 0 (length line)) in
  result st ++ [trim (current st)].

Definition parseCSV (content : jsstring) : Table :=
  let lines := filter (fun line => trim line <> []) (split NEWLINE content) in
  parseLine <$> lines.

(** ** compareCSV *)

(** [${n}] for a non-negative integer. *)
Definition num (n : nat) : jsstring :=
  str (NilZero.string_of_uint (Nat.to_uint n)).

(** The objects pushed on [differences], one constructor per [type], the
    fields in the order of the object literals. *)
Inductive Difference :=
| row_count (message : jsstring)
| missing_row (row : nat) (message : jsstring) (data : Row)
| column_count (row : nat) (message : jsstring)
| cell_difference (row column : nat) (value1 value2 message : jsstring).

(** [row[colIndex] || '']: [undefined] and the empty string are falsy. *)
Definition cellOr (cell : option jsstring) (d : jsstring) : jsstring :=
  match cell with
  | Some (c :: s) => c :: s
  | Some [] | None => d
  end.

Section Comparator.

Variables (csv1 csv2 : Table) (file1Name file2Name : jsstring).

Definition rowCountMessage : jsstring :=
  str "Row count differs: " ++ file1Name ++ str " has " ++ num (length csv1) ++
  str " rows, " ++ file2Name ++ str " has " ++ num (length csv2) ++ str " rows".

Definition missingRowMessage (rowIndex : nat) (fileName : jsstring) : jsstring :=
  str "Row " ++ num (rowIndex + 1) ++ str " exists only in " ++ fileName.

Definition columnCountMessage (rowIndex : nat) (row1 row2 : Row) : jsstring :=
  str "Row " ++ num (rowIndex + 1) ++ str " has different column counts: " ++
  num (length row1) ++ str " vs " ++ num (length row2).

Definition cellMessage (rowIndex colIndex : nat) (cell1 cell2 : jsstring) : jsstring :=
  str "Cell (" ++ num (rowIndex + 1) ++ str ", " ++ num (colIndex + 1) ++ str "): " ++
  [QUOTE] ++ cell1 ++ [QUOTE] ++ str " vs " ++ [QUOTE] ++ cell2 ++ [QUOTE].

(** The body of the loop over [colIndex]. *)
Definition compareCell (row1 row2 : Row) (rowIndex : nat)
    (differences : list Difference) (colIndex : nat) : list Difference :=
  let cell1 := cellOr (row1 !! colIndex) [] in
  let cell2 := cellOr (row2 !! colIndex) [] in
  if decide (cell1 <> cell2) then
    differences ++
      [cell_difference (rowIndex + 1) (colIndex + 1) cell1 cell2
         (cellMessage rowIndex colIndex cell1 cell2)]
  else differences.

(** The body of the loop over [rowIndex]; a row that is [undefined] is the
    only falsy one, and each [continue] ends the iteration. *)
Definition compareRow (differences : list Difference) (rowIndex : nat)
    : list Difference :=
  let row1 := default [] (csv1 !! rowIndex) in
  let row2 := default [] (csv2 !! rowIndex) in
  let maxCols := max (length row1) (length row2) in
  match csv1 !! rowIndex with
  | None =>
      differences ++
        [missing_row (rowIndex + 1) (missingRowMessage rowIndex file2Name) row2]
  | Some _ =>
      match csv2 !! rowIndex with
      | None =>
          differences ++
            [missing_row (rowIndex + 1) (missingRowMessage rowIndex file1Name) row1]
      | Some _ =>
          let differences :=
            if decide (length row1 <> length row2) then
              differences ++
                [column_count (rowIndex + 1) (columnCountMessage rowIndex row1 row2)]
            else differences in
          foldl (compareCell row1 row2 rowIndex) differences (seq 0 maxCols)
      end
  end.

Definition compareCSV : list Difference :=
  let differences := [] in
  let maxRows := max (length csv1) (length csv2) in
  let differences :=
    if decide (length csv1 <> length csv2) then
      differences ++ [row_count rowCountMessage]
    else differences in
  foldl compareRow differences (seq 0 maxRows).

End Comparator.

(** ** main *)

(** How a statement completes: normally, by a thrown exception, or by
    [process.exit(code)], which ends the process where it is called. *)
Inductive Completion (A : Type) :=
| Return (a : A)
| Throw (error : jsstring)
| Exit (code : nat).
Arguments Return {A} a.
Arguments Throw {A} error.
Arguments Exit {A} code.

Definition bind {A B} (m : Completion A) (k : A -> Completion B) : Completion B :=
  match m with
  | Return a => k a
  | Throw error => Throw error
  | Exit code => Exit code
  end.

Notation "'let!' x ':=' m 'in' k" := (bind m (fun x => k))
  (at level 10, x name, m at level 200, k at level 200).

(** [try { body } catch (error) { handler }] *)
Definition tryCatch {A} (body : Completion A) (handler : jsstring -> Completion A)
    : Completion A :=
  match body with
  | Throw error => handler error
  | _ => body
  end.

(** The object [saveDifferencesToFile] serializes. *)
Record Report := mkReport {
  timestamp : jsstring;
  totalDifferences : nat;
  differences : list Difference
}.

(** The host functions [main] calls.  [readFileSync] returns the decoded
    content or throws; [writeFileSync] receives the report whose
    [JSON.stringify] text it stores, and returns or throws. *)
Record Host := mkHost {
  existsSync : jsstring -> bool;
  readFileSync : jsstring -> jsstring + jsstring;
  writeFileSync : jsstring -> Report -> unit + jsstring;
  basename : jsstring -> jsstring;
  toISOString : jsstring
}.

Definition call {A} (r : A + jsstring) : Completion A :=
  match r with
  | inl a => Return a
  | inr error => Throw error
  end.

Definition saveDifferencesToFile (h : Host) (differences : list Difference)
    (outputFile : jsstring) : Completion unit :=
  let report := mkReport (toISOString h) (length differences) differences in
  call (writeFileSync h outputFile report).

(** [process.argv.slice(2)] is the argument [args].  [generateSummary] only
    prints.  With fewer than two arguments [main] has exited before
    [args[0]] and [args[1]] are read; [existsSync(undefined)] would be
    false. *)
Definition main (h : Host) (args : list jsstring) : Completion unit :=
  if decide (length args < 2) then Exit 1 else
  match args !! 0, args !! 1 with
  | Some file1Path, Some file2Path =>
      let outputFile := args !! 2 in
      if negb (existsSync h file1Path) then Exit 1 else
      if negb (existsSync h file2Path) then Exit 1 else
      tryCatch
        (let! content1 := call (readFileSync h file1Path) in
         let! content2 := call (readFileSync h file2Path) in
         let csv1 := parseCSV content1 in
         let csv2 := parseCSV content2 in
         let differences :=
           compareCSV csv1 csv2 (basename h file1Path) (basename h file2Path) in
         let! _ :=
           match outputFile with
           | Some (c :: s) => saveDifferencesToFile h differences (c :: s)
           | Some [] | None => Return tt
           end in
         Exit (if decide (0 < length differences) then 1 else 0))
        (fun error => Exit 1)
  | _, _ => Exit 1
  end.

(** The exit status of the process: the code given to [process.exit], 0
    after a normal return, 1 after an uncaught exception. *)
Definition exitCode (c : Completion unit) : nat :=
  match c with
  | Exit code => code
  | Return _ => 0
  | Throw _ => 1
  end.

(** ** Notions of the specification *)

(** The scan of one line as the specification words it: a flag, an
    accumulator, and the fields produced front to back. *)
Fixpoint scanSpec (flag : bool) (acc : jsstring) (line : jsstring) : Row :=
  match line with
  | [] => [trim acc]
  | c :: rest =>
      if (c =? QUOTE)%N then scanSpec (negb flag) acc rest
      else if (c =? COMMA)%N then
        if flag then scanSpec flag (acc ++ [c]) rest
        else trim acc :: scanSpec flag [] rest
      else scanSpec flag (acc ++ [c]) rest
  end.

(** The serialized form the round-trip property speaks of; the repository
    has no serializer.  A field containing a comma is wrapped in quotes,
    fields are joined with commas and rows with newlines. *)
Definition serializeField (field : jsstring) : jsstring :=
  if decide (COMMA ∈ field) then [QUOTE] ++ field ++ [QUOTE] else field.

Definition serializeRow (row : Row) : jsstring :=
  join [COMMA] (serializeField <$> row).

Definition serialize (t : Table) : jsstring :=
  join [NEWLINE] (serializeRow <$> t).

Definition blank (c : char) : Prop := isWhiteSpace c = true.

(** What a field of a parsed table looks like. *)
Definition cleanField (field : jsstring) : Prop :=
  trim field = field /\ (QUOTE ∉ field) /\ (NEWLINE ∉ field).

(** A row that survives serialization: clean fields, at least one, and not
    the single empty field, whose serialized line is blank. *)
Definition serializable (row : Row) : Prop :=
  Forall cleanField row /\ row <> [] /\ row <> [[]].

(** The entries one row, and one cell, add to [differences]. *)
Definition rowDifferences (csv1 csv2 : Table) (file1Name file2Name : jsstring)
    (rowIndex : nat) : list Difference :=
  compareRow csv1 csv2 file1Name file2Name [] rowIndex.

Definition cellDifferences (row1 row2 : Row) (rowIndex colIndex : nat)
    : list Difference :=
  compareCell row1 row2 rowIndex [] colIndex.

(** A cell as the specification reads it: the field at the column, the
    empty string where the row has none. *)
Definition cellAt (row : Row) (colIndex : nat) : jsstring :=
  default [] (row !! colIndex).

(** [diff.row]; the row-count record has none. *)
Definition rowOf (d : Difference) : option nat :=
  match d with
  | row_count _ => None
  | missing_row row _ _ | column_count row _ | cell_difference row _ _ _ _ =>
      Some row
  end.

(** The order of discovery: the row-count record before every other one,
    then by row, and within a row the column-count record before the cell
    records, these by column. *)
Definition discoveredBefore (d1 d2 : Difference) : Prop :=
  match d1, d2 with
  | _, row_count _ => False
  | row_count _, _ => True
  | missing_row r1 _ _, missing_row r2 _ _
  | missing_row r1 _ _, column_count r2 _
  | missing_row r1 _ _, cell_difference r2 _ _ _ _
  | column_count r1 _, missing_row r2 _ _
  | column_count r1 _, column_count r2 _
  | cell_difference r1 _ _ _ _, missing_row r2 _ _
  | cell_difference r1 _ _ _ _, column_count r2 _ => r1 < r2
  | column_count r1 _, cell_difference r2 _ _ _ _ => r1 <= r2
  | cell_difference r1 c1 _ _ _, cell_difference r2 c2 _ _ _ =>
      r1 < r2 \/ (r1 = r2 /\ c1 < c2)
  end.

(** What can happen in a run, in the words of the specification. *)
Definition usageError (args : list jsstring) : Prop := length args < 2.

Definition missingInput (h : Host) (args : list jsstring) : Prop :=
  exists path,
    (args !! 0 = Some path \/ args !! 1 = Some path) /\ existsSync h path = false.

(** The run reads both files and its comparison finds [found]. *)
Definition compared (h : Host) (args : list jsstring) (found : list Difference)
    : Prop :=
  exists file1Path file2Path content1 content2,
    args !! 0 = Some file1Path /\ args !! 1 = Some file2Path /\
    existsSync h file1Path = true /\ existsSync h file2Path = true /\
    readFileSync h file1Path = inl content1 /\
    readFileSync h file2Path = inl content2 /\
    found = compareCSV (parseCSV content1) (parseCSV content2)
              (basename h file1Path) (basename h file2Path).

(** Reading the first file throws, or reading the second one does after
    the first was read. *)
Definition readException (h : Host) (args : list jsstring) : Prop :=
  exists file1Path file2Path error,
    args !! 0 = Some file1Path /\ args !! 1 = Some file2Path /\
    existsSync h file1Path = true /\ existsSync h file2Path = true /\
    (readFileSync h file1Path = inr error \/
     (exists content1, readFileSync h file1Path = inl content1) /\
     readFileSync h file2Path = inr error).

(** Writing the requested report throws. *)
Definition writeException (h : Host) (args : list jsstring) : Prop :=
  exists found outputFile error,
    compared h args found /\
    args !! 2 = Some outputFile /\ outputFile <> [] /\
    writeFileSync h outputFile (mkReport (toISOString h) (length found) found) =
      inr error.

Definition errorOccurred (h : Host) (args : list jsstring) : Prop :=
  usageError args \/ missingInput h args \/ readException h args \/
  writeException h args.

(** A host with two readable files of equal tables, a third of another
    table, one file that exists but cannot be read, and a directory in
    which nothing can be written. *)
Definition sampleHost : Host :=
  mkHost
    (fun path =>
       bool_decide (path ∈ [str "a.csv"; str "b.csv"; str "old.csv"; str "locked.csv"]))
    (fun path =>
       if bool_decide (path = str "a.csv") then inl (str "id,name
1,Ada")
       else if bool_decide (path = str "b.csv") then inl (str "id, name

1, Ada
")
       else if bool_decide (path = str "old.csv") then inl (str "id,name
1,Eve")
       else inr (str "EACCES"))
    (fun path _ =>
       if bool_decide (path = str "ro/report.json") then inr (str "EROFS")
       else inl tt)
    (fun path => path)
    (str "2025-07-30T13:32:31.209Z").

(** ** Further notions *)

(** The body of the per-line loop at a character [line[i]] that is there. *)
Definition scanChar (st : ScanState) (char : N) : ScanState :=
  if (char =? QUOTE)%N then
    mkScan (result st) (current st) (negb (inQuotes st))
  else if (char =? COMMA)%N && negb (inQuotes st) then
    mkScan (result st ++ [trim (current st)]) [] (inQuotes st)
  else
    mkScan (result st) (current st ++ [char]) (inQuotes st).

(** [inQuotes] when the per-line loop has run over all of [text]. *)
Definition quoteOpen (text : jsstring) : bool :=
  inQuotes (foldl (scanStep text) scanInit (seq 0 (length text))).

(** The number of commas of a line. *)
Definition commas (line : jsstring) : nat :=
  length (filter (fun c => c = COMMA) line).

Definition CR : N := 13%N.

(** ** What [compareCSV] and [generateSummary] print *)

(** The characters of the messages outside ASCII, as UTF-16 code units:
    U+26A0 U+FE0F, U+2795, U+2796, U+1F504 (a surrogate pair), U+2192 and
    U+2705. *)
Definition WARNING_SIGN : jsstring := [9888%N; 65039%N].
Definition HEAVY_PLUS : jsstring := [10133%N].
Definition HEAVY_MINUS : jsstring := [10134%N].
Definition ARROWS : jsstring := [55357%N; 56580%N].
Definition RIGHT_ARROW : jsstring := [8594%N].
Definition CHECK_MARK : jsstring := [9989%N].

(** An entry of the array [cellDifferences] of [compareCSV]:
    [column], [value1], [value2]. *)
Abbreviation CellNote := (nat * list N * list N)%type (only parsing).

(** [   Column ${diff.column}: "${diff.value1}" -> "${diff.value2}"], the
    arrow being U+2192. *)
Definition cellLine (diff : CellNote) : jsstring :=
  let '(column, value1, value2) := diff in
  str "   Column " ++ num column ++ str ": " ++
  [QUOTE] ++ value1 ++ [QUOTE] ++ str " " ++ RIGHT_ARROW ++ str " " ++
  [QUOTE] ++ value2 ++ [QUOTE].

Section ComparatorConsole.

Variables (csv1 csv2 : Table) (file1Name file2Name : jsstring).

(** The loop over [colIndex] as the console sees it: [rowHasDifferences]
    and [cellDifferences]. *)
Definition noteCell (row1 row2 : Row) (st : bool * list CellNote) (colIndex : nat)
    : bool * list CellNote :=
  let cell1 := cellOr (row1 !! colIndex) [] in
  let cell2 := cellOr (row2 !! colIndex) [] in
  if decide (cell1 <> cell2) then
    (true, st.2 ++ [(colIndex + 1, cell1, cell2)])
  else st.

(** What one iteration of the loop over [rowIndex] logs; [console.log()]
    logs the empty line. *)
Definition printRow (console : list jsstring) (rowIndex : nat) : list jsstring :=
  let row1 := default [] (csv1 !! rowIndex) in
  let row2 := default [] (csv2 !! rowIndex) in
  let maxCols := max (length row1) (length row2) in
  match csv1 !! rowIndex with
  | None =>
      console ++
        [HEAVY_PLUS ++ str " Row " ++ num (rowIndex + 1) ++
           str " exists only in " ++ file2Name ++ str ":";
         str "   " ++ join (str " | ") row2 ++ [NEWLINE]]
  | Some _ =>
      match csv2 !! rowIndex with
      | None =>
          console ++
            [HEAVY_MINUS ++ str " Row " ++ num (rowIndex + 1) ++
               str " exists only in " ++ file1Name ++ str ":";
             str "   " ++ join (str " | ") row1 ++ [NEWLINE]]
      | Some _ =>
          let '(rowHasDifferences, cellDifferences) :=
            foldl (noteCell row1 row2) (false, []) (seq 0 maxCols) in
          if rowHasDifferences then
            console ++
              [ARROWS ++ str " Row " ++ num (rowIndex + 1) ++ str " differences:"] ++
              (cellLine <$> cellDifferences) ++ [[]]
          else console
      end
  end.

(** The four lines [compareCSV] logs first. *)
Definition consoleHeader : list jsstring :=
  [NEWLINE :: str "=== CSV Comparison Results ===";
   str "File 1: " ++ file1Name ++ str " (" ++ num (length csv1) ++ str " rows)";
   str "File 2: " ++ file2Name ++ str " (" ++ num (length csv2) ++ str " rows)";
   str "================================" ++ [NEWLINE]].

(** The arguments of the [console.log] calls of [compareCSV], in order. *)
Definition compareCSVConsole : list jsstring :=
  let maxRows := max (length csv1) (length csv2) in
  let console := consoleHeader in
  let console :=
    if decide (length csv1 <> length csv2) then
      console ++
        [WARNING_SIGN ++ str "  Row count difference: " ++ file1Name ++ str " has " ++
           num (length csv1) ++ str " rows, " ++ file2Name ++ str " has " ++
           num (length csv2) ++ str " rows" ++ [NEWLINE]]
    else console in
  foldl printRow console (seq 0 maxRows).

End ComparatorConsole.

(** The object [stats] of [generateSummary]. *)
Module Stats.
Record t := mk {
  row_count : nat;
  missing_row : nat;
  column_count : nat;
  cell_difference : nat
}.
End Stats.

(** [stats[diff.type]++] *)
Definition tally (stats : Stats.t) (diff : Difference) : Stats.t :=
  match diff with
  | row_count _ =>
      Stats.mk (Stats.row_count stats + 1) (Stats.missing_row stats)
        (Stats.column_count stats) (Stats.cell_difference stats)
  | missing_row _ _ _ =>
      Stats.mk (Stats.row_count stats) (Stats.missing_row stats + 1)
        (Stats.column_count stats) (Stats.cell_difference stats)
  | column_count _ _ =>
      Stats.mk (Stats.row_count stats) (Stats.missing_row stats)
        (Stats.column_count stats + 1) (Stats.cell_difference stats)
  | cell_difference _ _ _ _ _ =>
      Stats.mk (Stats.row_count stats) (Stats.missing_row stats)
        (Stats.column_count stats) (Stats.cell_difference stats + 1)
  end.

(** [stats] after the [forEach]. *)
Definition countStats (differences : list Difference) : Stats.t :=
  foldl tally (Stats.mk 0 0 0 0) differences.

Definition identicalLine : jsstring := CHECK_MARK ++ str " Files are identical!".

(** The arguments of the [console.log] calls of [generateSummary], in
    order. *)
Definition generateSummary (differences : list Difference) : list jsstring :=
  let console := [NEWLINE :: str "=== Summary ==="] in
  if decide (length differences = 0) then console ++ [identicalLine]
  else
    let stats := countStats differences in
    let console :=
      console ++ [str "Total differences found: " ++ num (length differences)] in
    let console :=
      if decide (0 < Stats.row_count stats) then
        console ++ [str "- Row count differences: " ++ num (Stats.row_count stats)]
      else console in
    let console :=
      if decide (0 < Stats.missing_row stats) then
        console ++ [str "- Missing rows: " ++ num (Stats.missing_row stats)]
      else console in
    let console :=
      if decide (0 < Stats.column_count stats) then
        console ++ [str "- Column count differences: " ++ num (Stats.column_count stats)]
      else console in
    let console :=
      if decide (0 < Stats.cell_difference stats) then
        console ++ [str "- Cell value differences: " ++ num (Stats.cell_difference stats)]
      else console in
    console.


(** * Properties of the parser *)

Section Trim.

Lemma trimStart_decomp s :
  exists w, s = w ++ trimStart s /\ Forall blank w.
Proof.
  induction s as [|c s IH]; simpl.
  - exists []. by split.
  - destruct (isWhiteSpace c) eqn:Hc.
    + destruct IH as (w & Hs & Hw). exists (c :: w). split.
      * simpl. by f_equal.
      * by constructor.
    + exists []. by split.
Qed.

Lemma trimStart_head s c r : trimStart s = c :: r -> isWhiteSpace c = false.
Proof.
  induction s as [|d s IH]; simpl; [done|].
  destruct (isWhiteSpace d) eqn:Hd; [done|].
  intros [= -> _]. done.
Qed.

Lemma trimStart_fixed c s : isWhiteSpace c = false -> trimStart (c :: s) = c :: s.
Proof. intros H. simpl. by rewrite H. Qed.

Lemma trimStart_idemp s : trimStart (trimStart s) = trimStart s.
Proof.
  destruct (trimStart s) as [|c r] eqn:E; [done|].
  apply trimStart_fixed. by eapply trimStart_head.
Qed.

Lemma trimEnd_decomp s :
  exists w, s = trimEnd s ++ w /\ Forall blank w.
Proof.
  unfold trimEnd. destruct (trimStart_decomp (reverse s)) as (w & Hs & Hw).
  exists (reverse w). split.
  - rewrite <- reverse_app, <- Hs. by rewrite reverse_involutive.
  - by apply Forall_reverse.
Qed.

Lemma trim_decomp s :
  exists w1 w2, s = w1 ++ trim s ++ w2 /\ Forall blank w1 /\ Forall blank w2.
Proof.
  destruct (trimStart_decomp s) as (w1 & H1 & Hw1).
  destruct (trimEnd_decomp (trimStart s)) as (w2 & H2 & Hw2).
  exists w1, w2. unfold trim. by rewrite <- H2.
Qed.

Lemma trim_idemp s : trim (trim s) = trim s.
Proof.
  unfold trim at 1.
  assert (Hs : trimStart (trim s) = trim s).
  { unfold trim. destruct (trimEnd_decomp (trimStart s)) as (w & Hd & _).
    destruct (trimEnd (trimStart s)) as [|c u] eqn:E; [done|].
    apply trimStart_fixed. apply (trimStart_head s c (u ++ w)). by rewrite Hd. }
  rewrite Hs. unfold trim, trimEnd.
  by rewrite reverse_involutive, trimStart_idemp.
Qed.

Lemma elem_of_trim c s : c ∈ trim s -> c ∈ s.
Proof.
  destruct (trim_decomp s) as (w1 & w2 & Hs & _). intros Hc.
  rewrite Hs, !elem_of_app. auto.
Qed.

Lemma trim_nonempty c s : c ∈ s -> isWhiteSpace c = false -> trim s <> [].
Proof.
  intros Hc Hw Ht. destruct (trim_decomp s) as (w1 & w2 & Hs & H1 & H2).
  rewrite Ht in Hs. simpl in Hs. rewrite Hs in Hc.
  apply elem_of_app in Hc as [Hc|Hc].
  - rewrite Forall_forall in H1. specialize (H1 _ Hc). unfold blank in H1. congruence.
  - rewrite Forall_forall in H2. specialize (H2 _ Hc). unfold blank in H2. congruence.
Qed.

End Trim.

Section Split.

Variable sep : char.

Lemma split_nonempty s : split sep s <> [].
Proof.
  destruct s as [|c s]; simpl; [done|].
  destruct (c =? sep)%N; [done|]. by destruct (split sep s).
Qed.

Lemma join_cons p q (ls : list jsstring) :
  join [sep] (p :: q :: ls) = p ++ sep :: join [sep] (q :: ls).
Proof. done. Qed.

Lemma join_split s : join [sep] (split sep s) = s.
Proof.
  induction s as [|c s IH]; [done|]. simpl.
  destruct (N.eqb_spec c sep) as [->|Hne].
  - pose proof (split_nonempty s) as Hn.
    destruct (split sep s) as [|q ls]; [done|].
    by rewrite join_cons, IH.
  - destruct (split sep s) as [|q ls] eqn:E; [by destruct (split_nonempty s)|].
    destruct ls as [|q' ls].
    + simpl in *. by rewrite IH.
    + rewrite join_cons in *. by rewrite <- IH.
Qed.

Lemma split_no_sep s : Forall (fun piece => sep ∉ piece) (split sep s).
Proof.
  induction s as [|c s IH]; simpl.
  - constructor; [|done]. apply not_elem_of_nil.
  - destruct (N.eqb_spec c sep) as [->|Hne].
    + constructor; [apply not_elem_of_nil|done].
    + destruct (split sep s) as [|q ls].
      * constructor; [|done]. rewrite list_elem_of_singleton. congruence.
      * inversion IH as [|? ? Hq Hls]; subst. constructor; [|done].
        rewrite elem_of_cons. intros [->|?]; done.
Qed.

Lemma split_app_sep p rest :
  sep ∉ p -> split sep (p ++ sep :: rest) = p :: split sep rest.
Proof.
  induction p as [|c p IH]; intros Hp; simpl.
  - by rewrite N.eqb_refl.
  - rewrite not_elem_of_cons in Hp. destruct Hp as [Hc Hp].
    destruct (N.eqb_spec c sep) as [->|_]; [done|].
    by rewrite IH.
Qed.

Lemma split_no_occurrence p : sep ∉ p -> split sep p = [p].
Proof.
  induction p as [|c p IH]; intros Hp; simpl; [done|].
  rewrite not_elem_of_cons in Hp. destruct Hp as [Hc Hp].
  destruct (N.eqb_spec c sep) as [->|_]; [done|].
  by rewrite IH.
Qed.

Lemma split_join ls :
  ls <> [] -> Forall (fun piece => sep ∉ piece) ls -> split sep (join [sep] ls) = ls.
Proof.
  induction ls as [|p ls IH]; [done|]. intros _ Hall.
  inversion Hall as [|? ? Hp Hls]; subst.
  destruct ls as [|q ls].
  - simpl. by apply split_no_occurrence.
  - rewrite join_cons, split_app_sep by done. f_equal. by apply IH.
Qed.

End Split.

Section Scan.

(** The index loop run from any state over the rest of a line, against
    the scan of the specification. *)
Lemma scan_loop pre rest st :
  let st' := foldl (scanStep (pre ++ rest)) st (seq (length pre) (length rest)) in
  result st' ++ [trim (current st')] =
  result st ++ scanSpec (inQuotes st) (current st) rest.
Proof.
  revert pre st. induction rest as [|c rest IH]; intros pre st; [done|].
  cbn [length seq foldl scanSpec].
  assert (Hc : scanStep (pre ++ c :: rest) st (length pre) =
    if (c =? QUOTE)%N then mkScan (result st) (current st) (negb (inQuotes st))
    else if (c =? COMMA)%N && negb (inQuotes st) then
      mkScan (result st ++ [trim (current st)]) [] (inQuotes st)
    else mkScan (result st) (current st ++ [c]) (inQuotes st)).
  { unfold scanStep. by rewrite list_lookup_middle. }
  rewrite Hc. clear Hc.
  specialize (IH (pre ++ [c])). rewrite <- app_assoc in IH. simpl in IH.
  replace (S (length pre)) with (length (pre ++ [c])) by (rewrite length_app; simpl; lia).
  rewrite IH.
  destruct (c =? QUOTE)%N; [done|].
  destruct (c =? COMMA)%N; simpl; [|done].
  destruct (inQuotes st); simpl; [done|].
  by rewrite <- app_assoc.
Qed.

Lemma parseLine_scanSpec line : parseLine line = scanSpec false [] line.
Proof. exact (scan_loop [] line scanInit). Qed.

Lemma scanSpec_nonempty flag acc line : 0 < length (scanSpec flag acc line).
Proof.
  revert flag acc. induction line as [|c line IH]; intros flag acc; simpl; [lia|].
  destruct (c =? QUOTE)%N; [apply IH|].
  destruct (c =? COMMA)%N; [|apply IH].
  destruct flag; [apply IH|]. simpl. lia.
Qed.

(** Every field is the trim of text made of characters of the accumulator
    and of characters of the line other than the quote. *)
Lemma scanSpec_fields flag acc line field :
  field ∈ scanSpec flag acc line ->
  exists s, field = trim s /\
    forall c, c ∈ s -> c ∈ acc \/ (c ∈ line /\ c <> QUOTE).
Proof.
  revert flag acc. induction line as [|c line IH]; intros flag acc; simpl.
  - rewrite list_elem_of_singleton. intros ->. exists acc. split; [done|]. auto.
  - assert (Hpush : c <> QUOTE -> field ∈ scanSpec flag (acc ++ [c]) line ->
      exists s, field = trim s /\
        forall d, d ∈ s -> d ∈ acc \/ (d ∈ c :: line /\ d <> QUOTE)).
    { intros Hq Hin. destruct (IH _ _ Hin) as (s & -> & Hs).
      exists s. split; [done|]. intros d Hd.
      destruct (Hs d Hd) as [Ha|[Hl Hn]].
      - apply elem_of_app in Ha as [Ha|Ha]; [by left|].
        apply list_elem_of_singleton in Ha as ->. right. split; [left|done].
      - right. split; [by right|done]. }
    destruct (N.eqb_spec c QUOTE) as [->|Hq].
    + intros Hin. destruct (IH _ _ Hin) as (s & -> & Hs).
      exists s. split; [done|]. intros d Hd.
      destruct (Hs d Hd) as [Ha|[Hl Hn]]; [by left|].
      right. split; [by right|done].
    + destruct (c =? COMMA)%N; [|by apply Hpush].
      destruct flag; [by apply Hpush|].
      rewrite elem_of_cons. intros [->|Hin].
      * exists acc. split; [done|]. auto.
      * destruct (IH _ _ Hin) as (s & -> & Hs).
        exists s. split; [done|]. intros d Hd.
        destruct (Hs d Hd) as [Ha|[Hl Hn]]; [by apply elem_of_nil in Ha|].
        right. split; [by right|done].
Qed.

End Scan.

Section ParsedRows.

Lemma parseLine_clean line :
  NEWLINE ∉ line -> Forall cleanField (parseLine line).
Proof.
  intros Hnl. rewrite parseLine_scanSpec. apply Forall_forall. intros field Hin.
  destruct (scanSpec_fields _ _ _ _ Hin) as (s & -> & Hs).
  assert (Hsub : forall c, c ∈ trim s -> c ∈ line /\ c <> QUOTE).
  { intros c Hc. apply elem_of_trim in Hc.
    destruct (Hs c Hc) as [Ha|?]; [by apply elem_of_nil in Ha|done]. }
  split; [apply trim_idemp|]. split.
  - intros Hq. by destruct (Hsub _ Hq).
  - intros Hn. by destruct (Hsub _ Hn).
Qed.

Lemma elem_of_join_piece sep (pieces : list jsstring) piece c :
  piece ∈ pieces -> c ∈ piece -> c ∈ join sep pieces.
Proof.
  induction pieces as [|p ps IH]; intros Hp Hc; [by apply elem_of_nil in Hp|].
  apply elem_of_cons in Hp as [->|Hp].
  - destruct ps; [done|]. cbn [join]. rewrite elem_of_app. by left.
  - destruct ps as [|q ps]; [by apply elem_of_nil in Hp|].
    cbn [join]. rewrite !elem_of_app. right. right. by apply IH.
Qed.

Lemma elem_of_split_piece sep s piece c :
  piece ∈ split sep s -> c ∈ piece -> c ∈ s.
Proof.
  intros Hp Hc. rewrite <- (join_split sep s). by eapply elem_of_join_piece.
Qed.

(** The lines [parseCSV] keeps. *)
Lemma parseCSV_lines content :
  parseCSV content =
  parseLine <$> filter (fun line => trim line <> []) (split NEWLINE content).
Proof. done. Qed.

End ParsedRows.

(** C5: the per-line loop of [parseCSV] is the scan of the specification,
    started with the flag false and an empty accumulator: a quote toggles
    the flag and is dropped, a comma ends the trimmed field only while the
    flag is false and is kept otherwise, and the trimmed accumulator is the
    last field whatever the flag. *)
Theorem C5_parseLine_scan (line : jsstring) :
  parseLine line = scanSpec false [] line.
Proof. apply parseLine_scanSpec. Qed.

(** C6: [parseCSV] is a total function, and its rows are the parsed
    physical lines of the content (the newline-free pieces whose join by
    newline is the content) that are not empty after trimming, in order. *)
Theorem C6_parseCSV_rows (content : jsstring) :
  exists lines : list jsstring,
    lines <> [] /\
    join [NEWLINE] lines = content /\
    Forall (fun line => NEWLINE ∉ line) lines /\
    parseCSV content = parseLine <$> filter (fun line => trim line <> []) lines /\
    length (parseCSV content) = length (filter (fun line => trim line <> []) lines).
Proof.
  exists (split NEWLINE content). split; [apply split_nonempty|].
  split; [apply join_split|]. split; [apply split_no_sep|].
  split; [done|]. unfold parseCSV. apply length_fmap.
Qed.

(** C10: every row of a parsed table has at least one field, and every
    field equals its own trim and contains neither a quote nor a newline. *)
Theorem C10_parsed_fields_clean (content : jsstring) :
  Forall (fun row => 0 < length row /\ Forall cleanField row) (parseCSV content).
Proof.
  rewrite parseCSV_lines. apply Forall_fmap, Forall_forall. intros line Hin.
  apply list_elem_of_filter in Hin as [_ Hin]. simpl. split.
  - rewrite parseLine_scanSpec. apply scanSpec_nonempty.
  - apply parseLine_clean.
    pose proof (split_no_sep NEWLINE content) as Hall.
    rewrite Forall_forall in Hall. by apply Hall.
Qed.

Section RoundTrip.

Lemma scanSpec_app flag acc text rest :
  QUOTE ∉ text -> flag = true \/ COMMA ∉ text ->
  scanSpec flag acc (text ++ rest) = scanSpec flag (acc ++ text) rest.
Proof.
  revert acc. induction text as [|c text IH]; intros acc Hq Hc.
  - by rewrite app_nil_r.
  - apply not_elem_of_cons in Hq as [Hq Hq'].
    assert (Hc' : flag = true \/ COMMA ∉ text).
    { destruct Hc as [?|Hc]; [by left|]. right.
      by apply not_elem_of_cons in Hc as [_ ?]. }
    cbn [app scanSpec].
    replace (c =? QUOTE)%N with false by (symmetry; apply N.eqb_neq; congruence).
    rewrite (IH (acc ++ [c])), <- app_assoc by done. simpl.
    destruct (N.eqb_spec c COMMA) as [->|_]; [|done].
    destruct Hc as [->|Hc]; [done|].
    by apply not_elem_of_cons in Hc as [? _].
Qed.

Lemma scanSpec_serializeField field rest :
  QUOTE ∉ field ->
  scanSpec false [] (serializeField field ++ rest) = scanSpec false field rest.
Proof.
  intros Hq. unfold serializeField. destruct (decide (COMMA ∈ field)) as [Hc|Hc].
  - rewrite <- !app_assoc. cbn [app scanSpec].
    change (QUOTE =? QUOTE)%N with true. cbv iota. simpl negb.
    rewrite scanSpec_app by auto. simpl. done.
  - by rewrite scanSpec_app by auto.
Qed.

Lemma serializeRow_cons field field' (row : Row) :
  serializeRow (field :: field' :: row) =
  serializeField field ++ COMMA :: serializeRow (field' :: row).
Proof. done. Qed.

Lemma parseLine_serializeRow (row : Row) :
  row <> [] -> Forall cleanField row -> parseLine (serializeRow row) = row.
Proof.
  rewrite parseLine_scanSpec.
  induction row as [|field row IH]; [done|]. intros _ Hall.
  inversion Hall as [|? ? (Ht & Hq & _) Hrow]; subst.
  destruct row as [|field' row].
  - unfold serializeRow. simpl.
    rewrite <- (app_nil_r (serializeField field)).
    rewrite scanSpec_serializeField by done. simpl. by rewrite Ht.
  - rewrite serializeRow_cons, scanSpec_serializeField by done.
    cbn [scanSpec]. change (COMMA =? QUOTE)%N with false.
    change (COMMA =? COMMA)%N with true. cbv iota.
    rewrite Ht. f_equal. by apply IH.
Qed.

Lemma serializeField_no_newline field :
  NEWLINE ∉ field -> NEWLINE ∉ serializeField field.
Proof.
  intros Hn. unfold serializeField. destruct (decide (COMMA ∈ field)); [|done].
  rewrite !not_elem_of_app, !not_elem_of_cons. repeat split; try done;
    apply not_elem_of_nil.
Qed.

Lemma serializeRow_no_newline (row : Row) :
  Forall cleanField row -> NEWLINE ∉ serializeRow row.
Proof.
  induction row as [|field row IH]; intros Hall; [apply not_elem_of_nil|].
  inversion Hall as [|? ? (_ & _ & Hn) Hrow]; subst.
  destruct row as [|field' row].
  - by apply serializeField_no_newline.
  - rewrite serializeRow_cons, not_elem_of_app, not_elem_of_cons.
    split; [by apply serializeField_no_newline|]. split; [done|]. by apply IH.
Qed.

Lemma serializeRow_not_blank (row : Row) :
  serializable row -> trim (serializeRow row) <> [].
Proof.
  intros (Hall & Hne & Hne'). destruct row as [|field row]; [done|].
  inversion Hall as [|? ? (Ht & _ & _) _]; subst.
  destruct row as [|field' row].
  - unfold serializeRow. simpl. unfold serializeField.
    destruct (decide (COMMA ∈ field)).
    + apply (trim_nonempty QUOTE); [|done]. simpl. left.
    + rewrite Ht. congruence.
  - apply (trim_nonempty COMMA); [|done].
    rewrite serializeRow_cons, elem_of_app. right. left.
Qed.

Lemma parseCSV_serialize (t : Table) :
  Forall serializable t -> parseCSV (serialize t) = t.
Proof.
  intros Hall. destruct (decide (t = [])) as [->|Hne]; [done|].
  unfold parseCSV, serialize. rewrite split_join.
  - clear Hne. induction Hall as [|row t Hrow Hall IH]; [done|].
    rewrite fmap_cons, filter_cons_True by by apply serializeRow_not_blank.
    rewrite fmap_cons, IH. f_equal.
    destruct Hrow as (Hc & Hn & _). by apply parseLine_serializeRow.
  - by destruct t.
  - apply Forall_fmap. eapply Forall_impl; [exact Hall|].
    intros row (Hc & _). by apply serializeRow_no_newline.
Qed.

Lemma scanSpec_comma acc line :
  COMMA ∈ line -> QUOTE ∉ line -> 2 <= length (scanSpec false acc line).
Proof.
  revert acc. induction line as [|c line IH]; intros acc Hc Hq.
  - by apply elem_of_nil in Hc.
  - apply not_elem_of_cons in Hq as [Hq Hq']. cbn [scanSpec].
    replace (c =? QUOTE)%N with false by (symmetry; apply N.eqb_neq; congruence).
    destruct (N.eqb_spec c COMMA) as [->|Hne].
    + pose proof (scanSpec_nonempty false [] line). simpl. lia.
    + apply elem_of_cons in Hc as [Hc|Hc]; [congruence|]. by apply IH.
Qed.

Lemma parseLine_serializable line :
  QUOTE ∉ line -> NEWLINE ∉ line -> trim line <> [] ->
  serializable (parseLine line).
Proof.
  intros Hq Hn Ht. split; [by apply parseLine_clean|].
  rewrite parseLine_scanSpec. destruct (decide (COMMA ∈ line)) as [Hc|Hc].
  - pose proof (scanSpec_comma [] line Hc Hq) as Hlen.
    split; intros E; rewrite E in Hlen; simpl in Hlen; lia.
  - rewrite <- (app_nil_r line) at 1 2. rewrite scanSpec_app by auto. simpl.
    split; congruence.
Qed.

End RoundTrip.

(** C8: for content without a quote character, serializing the parsed
    table and parsing the result gives the parsed table again. *)
Theorem C8_parse_serialize_parse (content : jsstring) :
  QUOTE ∉ content ->
  parseCSV (serialize (parseCSV content)) = parseCSV content.
Proof.
  intros Hq. apply parseCSV_serialize.
  rewrite parseCSV_lines. apply Forall_fmap, Forall_forall. intros line Hin.
  apply list_elem_of_filter in Hin as [Ht Hin]. simpl.
  apply parseLine_serializable; [| |done].
  - intros Hc. apply Hq. by eapply elem_of_split_piece.
  - pose proof (split_no_sep NEWLINE content) as Hall.
    rewrite Forall_forall in Hall. by apply Hall.
Qed.

Lemma C8_parse_serialize_parse_witness :
  (QUOTE ∉ str "id, name
1, Ada

2, Bob ,x") /\
  parseCSV (serialize (parseCSV (str "id, name
1, Ada

2, Bob ,x"))) = parseCSV (str "id, name
1, Ada

2, Bob ,x").
Proof.
  assert (H : QUOTE ∉ str "id, name
1, Ada

2, Bob ,x").
  { apply (bool_decide_unpack _). vm_compute. exact I. }
  split; [exact H|]. exact (C8_parse_serialize_parse _ H).
Defined.

(** * Properties of the comparator *)

Section Blocks.

Context {A B : Type}.

(** A loop that only appends: its result is the start value followed by
    what each iteration adds. *)
Lemma foldl_append (f : list A -> B -> list A) (g : B -> list A) :
  (forall acc x, f acc x = acc ++ g x) ->
  forall l acc, foldl f acc l = acc ++ mjoin (g <$> l).
Proof.
  intros Hf. induction l as [|x l IH]; intros acc; simpl.
  - by rewrite app_nil_r.
  - by rewrite IH, Hf, <- app_assoc.
Qed.

Lemma blocks_nil (g : B -> list A) l :
  (forall x, x ∈ l -> g x = []) -> mjoin (g <$> l) = [].
Proof.
  intros Hg. apply join_nil_2, Forall_fmap, Forall_forall. intros x Hx.
  simpl. by apply Hg.
Qed.

Lemma elem_of_blocks (g : B -> list A) l d :
  d ∈ mjoin (g <$> l) <-> exists x, x ∈ l /\ d ∈ g x.
Proof.
  rewrite list_elem_of_join. split.
  - intros (k & Hd & Hk). apply list_elem_of_fmap in Hk as (x & -> & Hx). eauto.
  - intros (x & Hx & Hd). exists (g x). split; [done|].
    by apply list_elem_of_fmap_2.
Qed.

End Blocks.

(** Blocks indexed by consecutive numbers are sorted when each block is
    and every entry of an earlier block is related to every entry of a
    later one. *)
Lemma StronglySorted_blocks {A} (R : relation A) (g : nat -> list A) :
  (forall i, StronglySorted R (g i)) ->
  (forall i j x y, i < j -> x ∈ g i -> y ∈ g j -> R x y) ->
  forall n start, StronglySorted R (mjoin (g <$> seq start n)).
Proof.
  intros Hblock Hcross. induction n as [|n IH]; intros start; simpl.
  - constructor.
  - apply StronglySorted_app; repeat split; [|done|apply IH].
    intros x y Hx Hy. apply elem_of_blocks in Hy as (j & Hj & Hy).
    apply elem_of_seq in Hj. apply (Hcross start j); [lia|done..].
Qed.

Section Compare.

Variables (csv1 csv2 : Table) (file1Name file2Name : jsstring).

Lemma cellOr_cellAt (row : Row) colIndex :
  cellOr (row !! colIndex) [] = cellAt row colIndex.
Proof. unfold cellAt. by destruct (row !! colIndex) as [[|??]|]. Qed.

Lemma compareCell_append row1 row2 rowIndex acc colIndex :
  compareCell row1 row2 rowIndex acc colIndex =
  acc ++ cellDifferences row1 row2 rowIndex colIndex.
Proof.
  unfold cellDifferences, compareCell.
  destruct (decide _); [done|]. by rewrite app_nil_r.
Qed.

Lemma cellDifferences_eq row1 row2 rowIndex colIndex :
  cellDifferences row1 row2 rowIndex colIndex =
  if decide (cellAt row1 colIndex <> cellAt row2 colIndex) then
    [cell_difference (rowIndex + 1) (colIndex + 1)
       (cellAt row1 colIndex) (cellAt row2 colIndex)
       (cellMessage rowIndex colIndex (cellAt row1 colIndex) (cellAt row2 colIndex))]
  else [].
Proof. unfold cellDifferences, compareCell. by rewrite !cellOr_cellAt. Qed.

Lemma compareRow_append acc rowIndex :
  compareRow csv1 csv2 file1Name file2Name acc rowIndex =
  acc ++ rowDifferences csv1 csv2 file1Name file2Name rowIndex.
Proof.
  unfold rowDifferences, compareRow.
  destruct (csv1 !! rowIndex) as [row1|]; [|done].
  destruct (csv2 !! rowIndex) as [row2|]; [|done]. simpl.
  rewrite !(foldl_append _ _ (compareCell_append row1 row2 rowIndex)).
  destruct (decide _); [by rewrite <- app_assoc|done].
Qed.

(** The rows both tables have. *)
Lemma rowDifferences_both rowIndex row1 row2 :
  csv1 !! rowIndex = Some row1 -> csv2 !! rowIndex = Some row2 ->
  rowDifferences csv1 csv2 file1Name file2Name rowIndex =
  (if decide (length row1 <> length row2) then
     [column_count (rowIndex + 1) (columnCountMessage rowIndex row1 row2)]
   else []) ++
  mjoin (cellDifferences row1 row2 rowIndex <$>
           seq 0 (max (length row1) (length row2))).
Proof.
  intros H1 H2. unfold rowDifferences, compareRow. rewrite H1, H2. simpl.
  rewrite (foldl_append _ _ (compareCell_append row1 row2 rowIndex)).
  by destruct (decide _).
Qed.

Lemma rowDifferences_only2 rowIndex :
  csv1 !! rowIndex = None ->
  rowDifferences csv1 csv2 file1Name file2Name rowIndex =
  [missing_row (rowIndex + 1) (missingRowMessage rowIndex file2Name)
     (default [] (csv2 !! rowIndex))].
Proof. intros H1. unfold rowDifferences, compareRow. by rewrite H1. Qed.

Lemma rowDifferences_only1 rowIndex row1 :
  csv1 !! rowIndex = Some row1 -> csv2 !! rowIndex = None ->
  rowDifferences csv1 csv2 file1Name file2Name rowIndex =
  [missing_row (rowIndex + 1) (missingRowMessage rowIndex file1Name) row1].
Proof. intros H1 H2. unfold rowDifferences, compareRow. by rewrite H1, H2. Qed.

Lemma compareCSV_blocks :
  compareCSV csv1 csv2 file1Name file2Name =
  (if decide (length csv1 <> length csv2) then
     [row_count (rowCountMessage csv1 csv2 file1Name file2Name)]
   else []) ++
  mjoin (rowDifferences csv1 csv2 file1Name file2Name <$>
           seq 0 (max (length csv1) (length csv2))).
Proof.
  unfold compareCSV. rewrite (foldl_append _ _ compareRow_append).
  by destruct (decide _).
Qed.

End Compare.

Section CompareFacts.

Variables (csv1 csv2 : Table) (file1Name file2Name : jsstring).

Lemma cellAt_eq_rows (row1 row2 : Row) :
  length row1 = length row2 ->
  (forall colIndex, colIndex < length row1 ->
     cellAt row1 colIndex = cellAt row2 colIndex) ->
  row1 = row2.
Proof.
  intros Hlen Hcells. apply list_eq. intros c.
  destruct (decide (c < length row1)) as [Hc|Hc].
  - specialize (Hcells c Hc). unfold cellAt in Hcells.
    destruct (lookup_lt_is_Some_2 row1 c Hc) as [x Hx].
    destruct (lookup_lt_is_Some_2 row2 c ltac:(lia)) as [y Hy].
    rewrite Hx, Hy in *. simpl in Hcells. by subst.
  - rewrite !lookup_ge_None_2 by lia. done.
Qed.

Lemma cellDifferences_nil row1 row2 rowIndex colIndex :
  cellDifferences row1 row2 rowIndex colIndex = [] <->
  cellAt row1 colIndex = cellAt row2 colIndex.
Proof.
  rewrite cellDifferences_eq. destruct (decide _) as [Hne|Heq].
  - split; [done|]. intros. by destruct Hne.
  - split; [|done]. intros _. by apply dec_stable.
Qed.

Lemma rowDifferences_nil rowIndex row1 row2 :
  csv1 !! rowIndex = Some row1 -> csv2 !! rowIndex = Some row2 ->
  rowDifferences csv1 csv2 file1Name file2Name rowIndex = [] <-> row1 = row2.
Proof.
  intros H1 H2. rewrite (rowDifferences_both _ _ _ _ _ _ _ H1 H2). split.
  - intros Hnil. apply app_eq_nil in Hnil as [Hcol Hcells].
    destruct (decide (length row1 <> length row2)) as [|Hlen]; [done|].
    apply dec_stable in Hlen. apply cellAt_eq_rows; [done|].
    intros c Hc. apply join_nil_1 in Hcells.
    rewrite Forall_fmap, Forall_forall in Hcells.
    apply (cellDifferences_nil _ _ rowIndex), Hcells, elem_of_seq. lia.
  - intros ->. rewrite decide_False by (intros H; by apply H). simpl.
    apply blocks_nil. intros c _. by apply cellDifferences_nil.
Qed.

Lemma rowDifferences_rowOf rowIndex d :
  d ∈ rowDifferences csv1 csv2 file1Name file2Name rowIndex ->
  rowOf d = Some (rowIndex + 1).
Proof.
  destruct (csv1 !! rowIndex) as [row1|] eqn:H1.
  - destruct (csv2 !! rowIndex) as [row2|] eqn:H2.
    + rewrite (rowDifferences_both _ _ _ _ _ _ _ H1 H2), elem_of_app.
      intros [Hd|Hd].
      * destruct (decide _); [|by apply elem_of_nil in Hd].
        by apply list_elem_of_singleton in Hd as ->.
      * apply elem_of_blocks in Hd as (c & _ & Hd).
        rewrite cellDifferences_eq in Hd.
        destruct (decide _); [|by apply elem_of_nil in Hd].
        by apply list_elem_of_singleton in Hd as ->.
    + rewrite (rowDifferences_only1 _ _ _ _ _ _ H1 H2).
      intros Hd. by apply list_elem_of_singleton in Hd as ->.
  - rewrite (rowDifferences_only2 _ _ _ _ _ H1).
    intros Hd. by apply list_elem_of_singleton in Hd as ->.
Qed.

Lemma elem_of_compareCSV d :
  d ∈ compareCSV csv1 csv2 file1Name file2Name <->
  (length csv1 <> length csv2 /\
   d = row_count (rowCountMessage csv1 csv2 file1Name file2Name)) \/
  (exists rowIndex, rowIndex < max (length csv1) (length csv2) /\
     d ∈ rowDifferences csv1 csv2 file1Name file2Name rowIndex).
Proof.
  rewrite compareCSV_blocks, elem_of_app, elem_of_blocks.
  assert (Hhead :
    d ∈ (if decide (length csv1 <> length csv2) then
           [row_count (rowCountMessage csv1 csv2 file1Name file2Name)]
         else []) <->
    length csv1 <> length csv2 /\
    d = row_count (rowCountMessage csv1 csv2 file1Name file2Name)).
  { destruct (decide _); [rewrite list_elem_of_singleton|rewrite elem_of_nil]; tauto. }
  rewrite Hhead. clear Hhead.
  split; (intros [H|(i & Hi & Hd)]; [by left|right; exists i; split; [|done]]).
  - apply elem_of_seq in Hi. lia.
  - apply elem_of_seq. lia.
Qed.

End CompareFacts.

Lemma compareCSV_same (t : Table) (file1Name file2Name : jsstring) :
  compareCSV t t file1Name file2Name = [].
Proof.
  rewrite compareCSV_blocks, decide_False by (intros H; by apply H). simpl.
  apply blocks_nil. intros i Hi. apply elem_of_seq in Hi.
  destruct (lookup_lt_is_Some_2 t i ltac:(lia)) as [row Hrow].
  by apply (rowDifferences_nil t t _ _ i row row).
Qed.

(** C9: an empty difference list means the two tables are equal. *)
Theorem C9_no_difference_equal (csv1 csv2 : Table) (file1Name file2Name : jsstring) :
  compareCSV csv1 csv2 file1Name file2Name = [] -> csv1 = csv2.
Proof.
  rewrite compareCSV_blocks. intros Hnil.
  apply app_eq_nil in Hnil as [Hcount Hrows].
  destruct (decide (length csv1 <> length csv2)) as [|Hlen]; [done|].
  apply dec_stable in Hlen. apply join_nil_1 in Hrows.
  rewrite Forall_fmap, Forall_forall in Hrows.
  apply list_eq. intros i. destruct (decide (i < length csv1)) as [Hi|Hi].
  - destruct (lookup_lt_is_Some_2 csv1 i Hi) as [row1 H1].
    destruct (lookup_lt_is_Some_2 csv2 i ltac:(lia)) as [row2 H2].
    rewrite H1, H2. f_equal.
    apply (rowDifferences_nil csv1 csv2 file1Name file2Name i); [done..|].
    apply Hrows, elem_of_seq. lia.
  - by rewrite !lookup_ge_None_2 by lia.
Qed.

Lemma C9_no_difference_equal_witness :
  compareCSV [[str "a"; str "b"]] [[str "a"; str "b"]] (str "x.csv") (str "y.csv") = [] /\
  [[str "a"; str "b"]] = [[str "a"; str "b"]].
Proof.
  assert (H : compareCSV [[str "a"; str "b"]] [[str "a"; str "b"]]
                (str "x.csv") (str "y.csv") = []) by (vm_compute; reflexivity).
  split; [exact H|]. exact (C9_no_difference_equal _ _ _ _ H).
Defined.

(** C3: when the second table is the first with one more row appended, the
    difference list is the row-count record followed by one missing-row
    record, for the row after the last shared one, whose message names the
    second file and whose data is the extra row; nothing else. *)
Theorem C3_one_extra_row (t : Table) (extra : Row) (file1Name file2Name : jsstring) :
  compareCSV t (t ++ [extra]) file1Name file2Name =
  [row_count (rowCountMessage t (t ++ [extra]) file1Name file2Name);
   missing_row (length t + 1) (missingRowMessage (length t) file2Name) extra].
Proof.
  rewrite compareCSV_blocks, length_app. simpl.
  rewrite decide_True by lia.
  replace (max (length t) (length t + 1)) with (length t + 1) by lia.
  rewrite seq_app, fmap_app, join_app. simpl.
  rewrite blocks_nil.
  - rewrite rowDifferences_only2 by (apply lookup_ge_None_2; lia).
    by rewrite list_lookup_middle.
  - intros i Hi. apply elem_of_seq in Hi.
    destruct (lookup_lt_is_Some_2 t i ltac:(lia)) as [row Hrow].
    apply (rowDifferences_nil _ _ _ _ i row row); [done| |done].
    by apply lookup_app_l_Some.
Qed.

(** C4: for a row present in both tables with different lengths, the
    comparator emits that row's column-count record and still compares the
    cells of columns 0 to the larger length, a missing cell read as the
    empty string: the cell records of the row are exactly those of the
    columns whose two values differ as strings. *)
Theorem C4_column_count_and_cells (csv1 csv2 : Table) (file1Name file2Name : jsstring)
    (rowIndex : nat) (row1 row2 : Row) :
  csv1 !! rowIndex = Some row1 -> csv2 !! rowIndex = Some row2 ->
  length row1 <> length row2 ->
  column_count (rowIndex + 1) (columnCountMessage rowIndex row1 row2)
    ∈ compareCSV csv1 csv2 file1Name file2Name /\
  forall column value1 value2 message,
    cell_difference (rowIndex + 1) column value1 value2 message
      ∈ compareCSV csv1 csv2 file1Name file2Name <->
    exists colIndex,
      colIndex < max (length row1) (length row2) /\
      column = colIndex + 1 /\
      value1 = cellAt row1 colIndex /\
      value2 = cellAt row2 colIndex /\
      value1 <> value2 /\
      message = cellMessage rowIndex colIndex value1 value2.
Proof.
  intros H1 H2 Hlen.
  pose proof (lookup_lt_Some _ _ _ H1) as Hlt.
  pose proof (rowDifferences_both csv1 csv2 file1Name file2Name _ _ _ H1 H2) as Hrow.
  rewrite decide_True in Hrow by done.
  split.
  - apply elem_of_compareCSV. right. exists rowIndex. split; [lia|].
    rewrite Hrow. apply elem_of_app. left. by apply list_elem_of_singleton.
  - intros column value1 value2 message. rewrite elem_of_compareCSV. split.
    + intros [[_ [=]]|(i & Hi & Hd)].
      pose proof (rowDifferences_rowOf _ _ _ _ _ _ Hd) as Hr. simpl in Hr.
      assert (i = rowIndex) as -> by (injection Hr; lia).
      rewrite Hrow in Hd. apply elem_of_app in Hd as [Hd|Hd].
      { by apply list_elem_of_singleton in Hd. }
      apply elem_of_blocks in Hd as (c & Hc & Hd). apply elem_of_seq in Hc.
      rewrite cellDifferences_eq in Hd.
      destruct (decide _) as [Hne|]; [|by apply elem_of_nil in Hd].
      apply list_elem_of_singleton in Hd. injection Hd as -> -> -> ->.
      exists c. repeat split; [lia|done].
    + intros (c & Hc & -> & -> & -> & Hne & ->). right.
      exists rowIndex. split; [lia|]. rewrite Hrow. apply elem_of_app. right.
      apply elem_of_blocks. exists c. split; [apply elem_of_seq; lia|].
      rewrite cellDifferences_eq, decide_True by done.
      by apply list_elem_of_singleton.
Qed.

Lemma C4_column_count_and_cells_witness :
  let csv1 := [[str "a"; str "b"]] in
  let csv2 := [[str "a"; str "B"; str "c"]] in
  csv1 !! 0 = Some [str "a"; str "b"] /\
  csv2 !! 0 = Some [str "a"; str "B"; str "c"] /\
  column_count 1 (columnCountMessage 0 [str "a"; str "b"] [str "a"; str "B"; str "c"])
    ∈ compareCSV csv1 csv2 (str "x.csv") (str "y.csv").
Proof.
  intros csv1 csv2. split; [reflexivity|]. split; [reflexivity|].
  refine (proj1 (C4_column_count_and_cells csv1 csv2 (str "x.csv") (str "y.csv") 0
            [str "a"; str "b"] [str "a"; str "B"; str "c"] _ _ _)).
  - reflexivity.
  - reflexivity.
  - simpl. lia.
Defined.

Section Order.

Lemma discoveredBefore_rows d1 d2 r1 r2 :
  rowOf d1 = Some r1 -> rowOf d2 = Some r2 -> r1 < r2 -> discoveredBefore d1 d2.
Proof.
  destruct d1, d2; simpl; intros [= <-] [= <-] Hlt; try done; lia.
Qed.

Lemma discoveredBefore_asym d1 d2 :
  discoveredBefore d1 d2 -> discoveredBefore d2 d1 -> False.
Proof. destruct d1, d2; simpl; lia. Qed.

Lemma StronglySorted_lookup_lt {A} (R : relation A) l i j x y :
  StronglySorted R l -> l !! i = Some x -> l !! j = Some y -> i < j -> R x y.
Proof.
  intros Hl. revert i j. induction Hl as [|a l Hl IH Ha]; intros i j Hi Hj Hlt.
  - done.
  - destruct j as [|j]; [lia|]. simpl in Hj. destruct i as [|i]; simpl in Hi.
    + injection Hi as ->. rewrite Forall_forall in Ha.
      by eapply Ha, list_elem_of_lookup_2.
    + apply (IH i j); [done..|lia].
Qed.

Lemma cellDifferences_sorted row1 row2 rowIndex n :
  StronglySorted discoveredBefore
    (mjoin (cellDifferences row1 row2 rowIndex <$> seq 0 n)).
Proof.
  apply StronglySorted_blocks.
  - intros c. rewrite cellDifferences_eq. destruct (decide _); repeat constructor.
  - intros c c' x y Hlt. rewrite !cellDifferences_eq.
    destruct (decide _); [|by rewrite elem_of_nil].
    destruct (decide _); [|by rewrite (elem_of_nil y)].
    rewrite !list_elem_of_singleton. intros -> ->. simpl. right. lia.
Qed.

Lemma rowDifferences_sorted csv1 csv2 file1Name file2Name rowIndex :
  StronglySorted discoveredBefore
    (rowDifferences csv1 csv2 file1Name file2Name rowIndex).
Proof.
  destruct (csv1 !! rowIndex) as [row1|] eqn:H1.
  - destruct (csv2 !! rowIndex) as [row2|] eqn:H2.
    + rewrite (rowDifferences_both _ _ _ _ _ _ _ H1 H2).
      apply StronglySorted_app; repeat split.
      * intros x y Hx Hy. destruct (decide _); [|by apply elem_of_nil in Hx].
        apply list_elem_of_singleton in Hx as ->.
        apply elem_of_blocks in Hy as (c & _ & Hy).
        rewrite cellDifferences_eq in Hy.
        destruct (decide _); [|by apply elem_of_nil in Hy].
        apply list_elem_of_singleton in Hy as ->. simpl. lia.
      * destruct (decide _); repeat constructor.
      * apply cellDifferences_sorted.
    + rewrite (rowDifferences_only1 _ _ _ _ _ _ H1 H2). repeat constructor.
  - rewrite (rowDifferences_only2 _ _ _ _ _ H1). repeat constructor.
Qed.

Lemma compareCSV_sorted csv1 csv2 file1Name file2Name :
  StronglySorted discoveredBefore (compareCSV csv1 csv2 file1Name file2Name).
Proof.
  rewrite compareCSV_blocks. apply StronglySorted_app; repeat split.
  - intros x y Hx Hy. destruct (decide _); [|by apply elem_of_nil in Hx].
    apply list_elem_of_singleton in Hx as ->.
    apply elem_of_blocks in Hy as (i & _ & Hy).
    apply rowDifferences_rowOf in Hy. by destruct y.
  - destruct (decide _); repeat constructor.
  - apply StronglySorted_blocks.
    + apply rowDifferences_sorted.
    + intros i j x y Hlt Hx Hy. apply rowDifferences_rowOf in Hx, Hy.
      apply (discoveredBefore_rows _ _ _ _ Hx Hy). lia.
Qed.

End Order.

(** C7: the difference list is in the order of discovery: of two of its
    records, the one at the smaller position is the row-count record, or
    has the smaller row, or in the same row is the column-count record
    before a cell record or the cell record of the smaller column; and
    conversely. *)
Theorem C7_discovery_order (csv1 csv2 : Table) (file1Name file2Name : jsstring)
    (i j : nat) (d1 d2 : Difference) :
  compareCSV csv1 csv2 file1Name file2Name !! i = Some d1 ->
  compareCSV csv1 csv2 file1Name file2Name !! j = Some d2 ->
  (i < j <-> discoveredBefore d1 d2).
Proof.
  intros Hi Hj.
  pose proof (compareCSV_sorted csv1 csv2 file1Name file2Name) as Hs. split.
  - intros Hlt. by apply (StronglySorted_lookup_lt _ _ i j _ _ Hs).
  - intros Hb. destruct (decide (i < j)) as [|Hge]; [done|]. exfalso.
    destruct (decide (i = j)) as [->|Hne].
    + assert (d1 = d2) as -> by congruence. exact (discoveredBefore_asym _ _ Hb Hb).
    + apply (discoveredBefore_asym d1 d2 Hb).
      apply (StronglySorted_lookup_lt _ _ j i _ _ Hs); [done..|lia].
Qed.

Lemma C7_discovery_order_witness :
  let l := compareCSV [[str "a"; str "b"]] [[str "A"; str "b"; str "c"]; [str "d"]]
             (str "x.csv") (str "y.csv") in
  exists d1 d2, l !! 1 = Some d1 /\ l !! 3 = Some d2 /\ (1 < 3 <-> discoveredBefore d1 d2).
Proof.
  intros l.
  exists (column_count 1 (columnCountMessage 0 [str "a"; str "b"] [str "A"; str "b"; str "c"])).
  exists (cell_difference 1 3 [] (str "c") (cellMessage 0 2 [] (str "c"))).
  assert (H1 : l !! 1 = Some (column_count 1
    (columnCountMessage 0 [str "a"; str "b"] [str "A"; str "b"; str "c"])))
    by (vm_compute; reflexivity).
  assert (H3 : l !! 3 = Some (cell_difference 1 3 [] (str "c") (cellMessage 0 2 [] (str "c"))))
    by (vm_compute; reflexivity).
  split; [exact H1|]. split; [exact H3|].
  exact (C7_discovery_order _ _ _ _ 1 3 _ _ H1 H3).
Defined.

(** * Exit codes *)

Section Run.

Variable h : Host.

Lemma main_usage args : length args < 2 -> main h args = Exit 1.
Proof. intros Hlt. unfold main. by rewrite decide_True. Qed.

Lemma main_inputs file1Path file2Path rest :
  main h (file1Path :: file2Path :: rest) =
  if negb (existsSync h file1Path) then Exit 1 else
  if negb (existsSync h file2Path) then Exit 1 else
  tryCatch
    (let! content1 := call (readFileSync h file1Path) in
     let! content2 := call (readFileSync h file2Path) in
     let found :=
       compareCSV (parseCSV content1) (parseCSV content2)
         (basename h file1Path) (basename h file2Path) in
     let! _ :=
       match rest !! 0 with
       | Some (c :: s) => saveDifferencesToFile h found (c :: s)
       | Some [] | None => Return tt
       end in
     Exit (if decide (0 < length found) then 1 else 0))
    (fun error => Exit 1).
Proof.
  unfold main. destruct (decide _) as [Hlt|_]; [simpl in Hlt; lia|]. done.
Qed.

Lemma compared_functional args found found' :
  compared h args found -> compared h args found' -> found = found'.
Proof.
  intros (p1 & p2 & c1 & c2 & H0 & H1 & _ & _ & R1 & R2 & ->)
         (q1 & q2 & e1 & e2 & G0 & G1 & _ & _ & S1 & S2 & ->).
  congruence.
Qed.

(** Every run ends in one of two ways. *)
Lemma main_cases args :
  (exitCode (main h args) = 1 /\
   ((exists found, compared h args found /\ found <> []) \/ errorOccurred h args)) \/
  (exitCode (main h args) = 0 /\ compared h args [] /\ ~ errorOccurred h args).
Proof.
  destruct (decide (length args < 2)) as [Hlt|Hge].
  { left. rewrite main_usage by done. split; [done|]. right. by left. }
  destruct args as [|file1Path [|file2Path rest]]; [simpl in Hge; lia..|].
  rewrite main_inputs.
  destruct (existsSync h file1Path) eqn:E1; simpl; cycle 1.
  { left. split; [done|]. right. right. left. exists file1Path. split; [by left|done]. }
  destruct (existsSync h file2Path) eqn:E2; simpl; cycle 1.
  { left. split; [done|]. right. right. left. exists file2Path. split; [by right|done]. }
  destruct (readFileSync h file1Path) as [content1|error] eqn:R1; simpl; cycle 1.
  { left. split; [done|]. right. right. right. left.
    exists file1Path, file2Path, error. repeat split; try done. by left. }
  destruct (readFileSync h file2Path) as [content2|error] eqn:R2; simpl; cycle 1.
  { left. split; [done|]. right. right. right. left.
    exists file1Path, file2Path, error. repeat split; try done. right. eauto. }
  set (found := compareCSV _ _ _ _).
  assert (Hcmp : compared h (file1Path :: file2Path :: rest) found).
  { exists file1Path, file2Path, content1, content2. by repeat split. }
  clearbody found.
  assert (Hsave : forall outputFile error,
    rest !! 0 = Some outputFile -> outputFile <> [] ->
    writeFileSync h outputFile (mkReport (toISOString h) (length found) found) =
      inr error ->
    writeException h (file1Path :: file2Path :: rest)).
  { intros outputFile error Hout Hne Hw. by exists found, outputFile, error. }
  assert (Hend :
    (exitCode (Exit (if decide (0 < length found) then 1 else 0)) = 1 /\
     found <> []) \/
    (exitCode (Exit (if decide (0 < length found) then 1 else 0)) = 0 /\
     found = [])).
  { destruct (decide (0 < length found)) as [Hpos|Hzero]; simpl; [left|right];
      (split; [done|]); destruct found; simpl in *; [lia|done|done|lia]. }
  assert (Hclean :
    ~ writeException h (file1Path :: file2Path :: rest) ->
    ~ errorOccurred h (file1Path :: file2Path :: rest)).
  { intros Hw [Hu|[(path & [[= <-]|[= <-]] & Hp)|[Hr|?]]]; [done|congruence..| |done].
    destruct Hr as (p1 & p2 & e & [= <-] & [= <-] & _ & _ & [?|[_ ?]]); congruence. }
  assert (Hfinish :
    ~ writeException h (file1Path :: file2Path :: rest) ->
    (exitCode (Exit (if decide (0 < length found) then 1 else 0)) = 1 /\
     ((exists found', compared h (file1Path :: file2Path :: rest) found' /\
         found' <> []) \/
      errorOccurred h (file1Path :: file2Path :: rest))) \/
    (exitCode (Exit (if decide (0 < length found) then 1 else 0)) = 0 /\
     compared h (file1Path :: file2Path :: rest) [] /\
     ~ errorOccurred h (file1Path :: file2Path :: rest))).
  { intros Hw. destruct Hend as [[Hc Hf]|[Hc Hf]].
    - left. split; [done|]. left. by exists found.
    - right. split; [done|]. split; [by rewrite <- Hf|by apply Hclean]. }
  assert (Hnowrite : forall outputFile,
    rest !! 0 = Some outputFile ->
    (outputFile = [] \/
     writeFileSync h outputFile (mkReport (toISOString h) (length found) found) =
       inl tt) ->
    ~ writeException h (file1Path :: file2Path :: rest)).
  { intros outputFile Hout Hok (found' & out' & e & Hc' & Ho' & Hne' & Hw').
    rewrite (compared_functional _ _ _ Hc' Hcmp) in Hw'.
    simpl in Ho'. assert (out' = outputFile) as -> by congruence.
    destruct Hok; congruence. }
  destruct (rest !! 0) as [[|c s]|] eqn:Hout; simpl.
  - apply Hfinish. apply (Hnowrite []); auto.
  - unfold saveDifferencesToFile.
    destruct (writeFileSync h (c :: s) _) as [[]|error] eqn:Hw; simpl.
    + apply Hfinish. apply (Hnowrite (c :: s)); auto.
    + left. split; [done|]. right. right. right. right. by eapply Hsave.
  - apply Hfinish. intros (found' & out' & e & _ & Ho' & _). simpl in Ho'. congruence.
Qed.

End Run.

(** C2: the exit code is 0 exactly when no differences were found and no
    error occurred, and 1 exactly when differences were found or an error
    occurred: fewer than two arguments, an input file that does not exist,
    or an exception while reading the inputs or writing the report. *)
Theorem C2_exit_code (h : Host) (args : list jsstring) :
  (exitCode (main h args) = 0 <->
     (forall found, compared h args found -> found = []) /\
     ~ errorOccurred h args) /\
  (exitCode (main h args) = 1 <->
     (exists found, compared h args found /\ found <> []) \/
     errorOccurred h args).
Proof.
  destruct (main_cases h args) as [[Hcode Hcause]|(Hcode & Hcmp & Hclean)];
    rewrite Hcode.
  - split; split; try done.
    intros [Hnone Hclean]. destruct Hcause as [(found & Hcmp & Hne)|Herr]; [|done].
    by destruct Hne, (Hnone found).
  - split; split; try done.
    + intros _. split; [|done]. intros found Hf.
      by apply (compared_functional h args).
    + intros [(found & Hf & Hne)|Herr]; [|done].
      destruct Hne. by apply (compared_functional h args).
Qed.

(** C1: the comparator returns the empty list on equal tables, and a run
    on two files that exist, are read, and parse to equal tables exits
    with code 0 when no report is requested or the report is written
    without an exception. *)
Theorem C1_equal_tables :
  (forall (t1 t2 : Table) (file1Name file2Name : jsstring),
     t1 = t2 -> compareCSV t1 t2 file1Name file2Name = []) /\
  (forall (h : Host) (file1Path file2Path : jsstring) (rest : list jsstring)
          (content1 content2 : jsstring),
     existsSync h file1Path = true -> existsSync h file2Path = true ->
     readFileSync h file1Path = inl content1 ->
     readFileSync h file2Path = inl content2 ->
     parseCSV content1 = parseCSV content2 ->
     (forall outputFile, rest !! 0 = Some outputFile -> outputFile <> [] ->
        writeFileSync h outputFile (mkReport (toISOString h) 0 []) = inl tt) ->
     exitCode (main h (file1Path :: file2Path :: rest)) = 0).
Proof.
  split.
  - intros t1 t2 f1 f2 ->. apply compareCSV_same.
  - intros h file1Path file2Path rest content1 content2 E1 E2 R1 R2 Heq Hw.
    rewrite main_inputs, E1, E2, R1, R2. simpl.
    rewrite Heq, compareCSV_same.
    destruct (rest !! 0) as [[|c s]|] eqn:Hout; simpl; [done| |done].
    unfold saveDifferencesToFile. simpl. by rewrite (Hw (c :: s)).
Qed.

Lemma C1_equal_tables_witness :
  compareCSV [[str "a"]] [[str "a"]] (str "a.csv") (str "b.csv") = [] /\
  exitCode (main sampleHost [str "a.csv"; str "b.csv"; str "report.json"]) = 0.
Proof.
  split.
  - apply (proj1 C1_equal_tables). reflexivity.
  - apply (proj2 C1_equal_tables sampleHost (str "a.csv") (str "b.csv")
             [str "report.json"] (str "id,name
1,Ada") (str "id, name

1, Ada
")).
    + reflexivity.
    + reflexivity.
    + reflexivity.
    + reflexivity.
    + vm_compute. reflexivity.
    + intros outputFile [= <-] _. reflexivity.
Defined.

(** Equal tables do not by themselves give exit code 0: both inputs are
    read and parse to the same table, the report is requested in a place
    where it cannot be written, [writeFileSync] throws inside the [try],
    and the handler exits with code 1. *)
Lemma C1_report_write_throws :
  existsSync sampleHost (str "a.csv") = true /\
  existsSync sampleHost (str "b.csv") = true /\
  readFileSync sampleHost (str "a.csv") = inl (str "id,name
1,Ada") /\
  readFileSync sampleHost (str "b.csv") = inl (str "id, name

1, Ada
") /\
  parseCSV (str "id,name
1,Ada") = parseCSV (str "id, name

1, Ada
") /\
  exitCode (main sampleHost [str "a.csv"; str "b.csv"; str "ro/report.json"]) = 1.
Proof. repeat split; vm_compute; reflexivity. Qed.

(** * The scenarios of the specification *)

Example one_changed_cell :
  compareCSV (parseCSV (str "Name,Age
Alice,30
Bob,25")) (parseCSV (str "Name,Age
Alice,31
Bob,25")) (str "file1.csv") (str "file2.csv") =
  [cell_difference 2 2 (str "30") (str "31")
     (str "Cell (2, 2): " ++ [QUOTE] ++ str "30" ++ [QUOTE] ++ str " vs " ++
      [QUOTE] ++ str "31" ++ [QUOTE])].
Proof. vm_compute. reflexivity. Qed.

Example case_sensitive :
  compareCSV [[str "Chicago"]] [[str "chicago"]] (str "file1.csv") (str "file2.csv") =
  [cell_difference 1 1 (str "Chicago") (str "chicago")
     (cellMessage 0 0 (str "Chicago") (str "chicago"))].
Proof. vm_compute. reflexivity. Qed.

Example comma_inside_quotes :
  parseLine (str "1, " ++ [QUOTE] ++ str "Doe, Jane" ++ [QUOTE] ++ str " ,x") =
  [str "1"; str "Doe, Jane"; str "x"].
Proof. vm_compute. reflexivity. Qed.

Example unterminated_quote :
  parseLine (str "a," ++ [QUOTE] ++ str "b,c") = [str "a"; str "b,c"].
Proof. vm_compute. reflexivity. Qed.

(** With quote characters in the content a row can be the single empty
    field, which the serialized form loses. *)
Example quoted_empty_field :
  parseCSV [QUOTE; QUOTE] = [[[]]] /\
  parseCSV (serialize (parseCSV [QUOTE; QUOTE])) = [].
Proof. split; vm_compute; reflexivity. Qed.

Example too_few_arguments : exitCode (main sampleHost [str "a.csv"]) = 1.
Proof. vm_compute. reflexivity. Qed.

Example input_not_found :
  exitCode (main sampleHost [str "a.csv"; str "c.csv"]) = 1.
Proof. vm_compute. reflexivity. Qed.

Example input_not_readable :
  exitCode (main sampleHost [str "a.csv"; str "locked.csv"]) = 1.
Proof. vm_compute. reflexivity. Qed.

Example identical_inputs :
  exitCode (main sampleHost [str "a.csv"; str "b.csv"]) = 0.
Proof. vm_compute. reflexivity. Qed.

Example differing_inputs :
  exitCode (main sampleHost [str "a.csv"; str "old.csv"; str "report.json"]) = 1.
Proof. vm_compute. reflexivity. Qed.

(** * Further properties of the parser *)

Section ScanChars.

(** The index loop over a middle part of a line is the fold of the loop
    body over its characters. *)
Lemma scan_chars pre mid post st :
  foldl (scanStep (pre ++ mid ++ post)) st (seq (length pre) (length mid)) =
  foldl scanChar st mid.
Proof.
  revert pre st. induction mid as [|c mid IH]; intros pre st; [done|].
  cbn [length seq foldl app].
  assert (Hc : scanStep (pre ++ c :: mid ++ post) st (length pre) = scanChar st c).
  { unfold scanStep. by rewrite list_lookup_middle. }
  rewrite Hc. specialize (IH (pre ++ [c]) (scanChar st c)).
  rewrite <- app_assoc, length_app in IH. simpl in IH.
  by replace (length pre + 1) with (S (length pre)) in IH by lia.
Qed.

Lemma scan_line line :
  foldl (scanStep line) scanInit (seq 0 (length line)) = foldl scanChar scanInit line.
Proof.
  pose proof (scan_chars [] line [] scanInit) as H.
  simpl in H. by rewrite app_nil_r in H.
Qed.

Lemma parseLine_chars line :
  parseLine line =
  result (foldl scanChar scanInit line) ++
  [trim (current (foldl scanChar scanInit line))].
Proof. unfold parseLine. by rewrite scan_line. Qed.

Lemma scanChars_spec st text :
  result (foldl scanChar st text) ++ [trim (current (foldl scanChar st text))] =
  result st ++ scanSpec (inQuotes st) (current st) text.
Proof.
  revert st. induction text as [|c text IH]; intros st; [done|].
  cbn [foldl scanSpec]. rewrite IH. unfold scanChar.
  destruct (c =? QUOTE)%N; [done|].
  destruct (c =? COMMA)%N; simpl; [|done].
  destruct (inQuotes st); simpl; [done|]. by rewrite <- app_assoc.
Qed.

Lemma scanChar_quotes st : scanChar (scanChar st QUOTE) QUOTE = st.
Proof. destruct st as [r c q]. unfold scanChar. simpl. by rewrite negb_involutive. Qed.

Lemma scanChar_comma st :
  inQuotes st = false ->
  scanChar st COMMA = mkScan (result st ++ [trim (current st)]) [] false.
Proof. intros H. unfold scanChar. simpl. by rewrite H. Qed.

Lemma scanChars_result_length st text :
  length (result (foldl scanChar st text)) <= length (result st) + commas text.
Proof.
  revert st. induction text as [|c text IH]; intros st; [simpl; lia|].
  cbn [foldl]. etransitivity; [apply IH|]. unfold commas, scanChar.
  destruct (N.eqb_spec c QUOTE) as [->|Hq].
  { rewrite filter_cons_False by done. simpl. lia. }
  destruct (N.eqb_spec c COMMA) as [->|Hc].
  - rewrite filter_cons_True by done. destruct (inQuotes st); simpl;
      rewrite ?length_app; simpl; lia.
  - rewrite filter_cons_False by done. simpl. lia.
Qed.

End ScanChars.

(** X1: a comma met while no quote is open cuts the line into two parts
    that are parsed independently. *)
Theorem X1_comma_outside_quotes (before after : jsstring) :
  quoteOpen before = false ->
  parseLine (before ++ COMMA :: after) = parseLine before ++ parseLine after.
Proof.
  unfold quoteOpen. rewrite scan_line. intros Hopen.
  rewrite (parseLine_chars (before ++ COMMA :: after)), foldl_app.
  cbn [foldl]. rewrite scanChars_spec, scanChar_comma by done. simpl.
  by rewrite parseLine_chars, parseLine_scanSpec.
Qed.

Lemma X1_comma_outside_quotes_witness :
  quoteOpen ([QUOTE] ++ str "Doe, Jane" ++ [QUOTE]) = false /\
  parseLine (([QUOTE] ++ str "Doe, Jane" ++ [QUOTE]) ++ COMMA :: str " 7 ") =
  parseLine ([QUOTE] ++ str "Doe, Jane" ++ [QUOTE]) ++ parseLine (str " 7 ").
Proof.
  split; [reflexivity|].
  apply (X1_comma_outside_quotes ([QUOTE] ++ str "Doe, Jane" ++ [QUOTE]) (str " 7 ")).
  reflexivity.
Defined.

(** X2: two quote characters in a row leave no trace: the line parses as
    if they were not there, so a doubled quote never yields a quote. *)
Theorem X2_doubled_quote_vanishes (before after : jsstring) :
  parseLine (before ++ QUOTE :: QUOTE :: after) = parseLine (before ++ after).
Proof.
  rewrite !parseLine_chars, !foldl_app. cbn [foldl].
  by rewrite scanChar_quotes.
Qed.

(** X3: a line has at most one field more than it has commas. *)
Theorem X3_field_count_bound (line : jsstring) :
  length (parseLine line) <= commas line + 1.
Proof.
  rewrite parseLine_chars, length_app. simpl.
  pose proof (scanChars_result_length scanInit line) as H. simpl in H. lia.
Qed.

Section Blank.

Lemma trimStart_blank s : Forall blank s -> trimStart s = [].
Proof.
  induction 1 as [|c s Hc _ IH]; [done|]. simpl. unfold blank in Hc. by rewrite Hc.
Qed.

Lemma trimStart_app_blank_l w s : Forall blank w -> trimStart (w ++ s) = trimStart s.
Proof.
  induction 1 as [|c w Hc _ IH]; [done|]. simpl. unfold blank in Hc. by rewrite Hc.
Qed.

Lemma trimStart_nil_blank s : trimStart s = [] -> Forall blank s.
Proof.
  intros H. destruct (trimStart_decomp s) as (w & Hs & Hw).
  rewrite H, app_nil_r in Hs. by subst.
Qed.

Lemma trimStart_app_r s w : trimStart s <> [] -> trimStart (s ++ w) = trimStart s ++ w.
Proof.
  induction s as [|c s IH]; [done|]. simpl.
  destruct (isWhiteSpace c); [apply IH|done].
Qed.

Lemma trimEnd_app_blank s w : Forall blank w -> trimEnd (s ++ w) = trimEnd s.
Proof.
  intros Hw. unfold trimEnd. rewrite reverse_app, trimStart_app_blank_l; [done|].
  by apply Forall_reverse.
Qed.

Lemma trim_blank s : Forall blank s -> trim s = [].
Proof. intros H. unfold trim. by rewrite trimStart_blank. Qed.

Lemma trim_nil_blank s : trim s = [] -> Forall blank s.
Proof.
  intros H. destruct (trim_decomp s) as (w1 & w2 & Hs & H1 & H2).
  rewrite H in Hs. simpl in Hs. subst. by apply Forall_app_2.
Qed.

Lemma trim_app_blank s w : Forall blank w -> trim (s ++ w) = trim s.
Proof.
  intros Hw. destruct (decide (trimStart s = [])) as [Hs|Hs].
  - rewrite !trim_blank; [done|by apply trimStart_nil_blank|].
    apply Forall_app_2; [by apply trimStart_nil_blank|done].
  - unfold trim. by rewrite trimStart_app_r, trimEnd_app_blank.
Qed.

Lemma blank_not_quote_comma c : blank c -> c <> QUOTE /\ c <> COMMA.
Proof. unfold blank. split; intros ->; discriminate. Qed.

Lemma scanChars_blank st w :
  Forall blank w ->
  foldl scanChar st w = mkScan (result st) (current st ++ w) (inQuotes st).
Proof.
  intros Hw. revert st. induction Hw as [|c w Hc _ IH]; intros st.
  - destruct st. simpl. by rewrite app_nil_r.
  - cbn [foldl]. rewrite IH. destruct (blank_not_quote_comma c Hc) as [Hq Hm].
    unfold scanChar.
    replace (c =? QUOTE)%N with false by (symmetry; by apply N.eqb_neq).
    replace (c =? COMMA)%N with false by (symmetry; by apply N.eqb_neq).
    simpl. by rewrite <- app_assoc.
Qed.

Lemma parseLine_app_blank line w :
  Forall blank w -> parseLine (line ++ w) = parseLine line.
Proof.
  intros Hw. rewrite !parseLine_chars, foldl_app, scanChars_blank by done.
  simpl. by rewrite trim_app_blank.
Qed.

End Blank.

Section Lines.

Lemma split_app sep a b :
  split sep (a ++ sep :: b) = split sep a ++ split sep b.
Proof.
  induction a as [|c a IH]; simpl.
  - by rewrite N.eqb_refl.
  - rewrite IH. destruct (c =? sep)%N; [done|].
    pose proof (split_nonempty sep a). by destruct (split sep a).
Qed.

Lemma split_app_last sep a w :
  sep ∉ w ->
  exists pieces piece,
    split sep a = pieces ++ [piece] /\ split sep (a ++ w) = pieces ++ [piece ++ w].
Proof.
  intros Hw. induction a as [|c a (pieces & piece & Ha & Haw)].
  - exists [], []. split; [done|]. by apply split_no_occurrence.
  - simpl. rewrite Ha, Haw. destruct (c =? sep)%N.
    + by exists ([] :: pieces), piece.
    + destruct pieces as [|p pieces]; simpl.
      * by exists [], (c :: piece).
      * by exists ((c :: p) :: pieces), piece.
Qed.

Lemma parseCSV_app_newline a b :
  parseCSV (a ++ NEWLINE :: b) = parseCSV a ++ parseCSV b.
Proof. unfold parseCSV. by rewrite split_app, filter_app, fmap_app. Qed.

Lemma parseCSV_app_blank_char content c :
  blank c -> parseCSV (content ++ [c]) = parseCSV content.
Proof.
  intros Hc. destruct (decide (c = NEWLINE)) as [->|Hn].
  - rewrite parseCSV_app_newline. by rewrite app_nil_r.
  - destruct (split_app_last NEWLINE content [c]) as (pieces & piece & Hs & Hsw).
    { rewrite list_elem_of_singleton. congruence. }
    unfold parseCSV. rewrite Hs, Hsw, !filter_app, !fmap_app. f_equal.
    assert (Hb : Forall blank [c]) by (by constructor).
    rewrite !filter_singleton, trim_app_blank by done.
    destruct (decide _); [|done]. simpl. by rewrite parseLine_app_blank.
Qed.

Lemma blank_join (pieces : list jsstring) :
  Forall (Forall blank) pieces -> Forall blank (join [NEWLINE] pieces).
Proof.
  induction 1 as [|p ps Hp Hps IH]; [done|].
  destruct ps as [|q ps]; [done|]. rewrite join_cons.
  apply Forall_app_2; [done|]. by constructor.
Qed.

Lemma join_cons_sep sep p q (pieces : list jsstring) :
  join sep (p :: q :: pieces) = p ++ sep ++ join sep (q :: pieces).
Proof. done. Qed.

End Lines.

(** X4: the table of a content of whitespace only is empty, and no other
    content has an empty table. *)
Theorem X4_empty_table_iff_blank (content : jsstring) :
  parseCSV content = [] <-> Forall blank content.
Proof.
  split.
  - intros Hnil. rewrite <- (join_split NEWLINE content). apply blank_join.
    apply Forall_forall. intros piece Hin. apply trim_nil_blank.
    destruct (decide (trim piece = [])) as [|Hne]; [done|].
    unfold parseCSV in Hnil. apply fmap_nil_inv in Hnil.
    by destruct (filter_nil_not_elem_of _ _ piece Hnil Hne).
  - intros Hb. unfold parseCSV.
    assert (Hall : Forall (fun line => trim line = []) (split NEWLINE content)).
    { apply Forall_forall. intros piece Hin. apply trim_blank, Forall_forall.
      intros c Hc. rewrite Forall_forall in Hb. apply Hb.
      by eapply elem_of_split_piece. }
    induction Hall as [|piece pieces Hp _ IH]; [done|].
    by rewrite filter_cons_False by (intros H; by apply H).
Qed.

(** X5: the table of two contents put together with a newline between them
    is the first table followed by the second. *)
Theorem X5_tables_concatenate (content1 content2 : jsstring) :
  parseCSV (content1 ++ NEWLINE :: content2) = parseCSV content1 ++ parseCSV content2.
Proof. apply parseCSV_app_newline. Qed.

(** X6: whitespace at the end of the content, blank lines included, does
    not change the table. *)
Theorem X6_trailing_whitespace (content w : jsstring) :
  Forall blank w -> parseCSV (content ++ w) = parseCSV content.
Proof.
  intros Hw. revert content. induction Hw as [|c w Hc _ IH]; intros content.
  - by rewrite app_nil_r.
  - replace (content ++ c :: w) with ((content ++ [c]) ++ w) by by rewrite <- app_assoc.
    by rewrite IH, parseCSV_app_blank_char.
Qed.

Lemma X6_trailing_whitespace_witness :
  Forall blank [CR; NEWLINE; 32%N; NEWLINE] /\
  parseCSV (str "a,b" ++ [CR; NEWLINE; 32%N; NEWLINE]) = parseCSV (str "a,b").
Proof.
  assert (H : Forall blank [CR; NEWLINE; 32%N; NEWLINE]) by (repeat constructor).
  split; [exact H|]. exact (X6_trailing_whitespace (str "a,b") _ H).
Defined.

(** X7: lines ended by carriage return and line feed give the same table
    as the same lines ended by a line feed alone. *)
Theorem X7_crlf_line_ends (lines : list jsstring) :
  parseCSV (join [CR; NEWLINE] lines) = parseCSV (join [NEWLINE] lines).
Proof.
  induction lines as [|line lines IH]; [done|].
  destruct lines as [|line' lines]; [done|].
  rewrite !(join_cons_sep _ line).
  replace (line ++ [CR; NEWLINE] ++ join [CR; NEWLINE] (line' :: lines))
    with ((line ++ [CR]) ++ NEWLINE :: join [CR; NEWLINE] (line' :: lines))
    by by rewrite <- app_assoc.
  change (line ++ [NEWLINE] ++ join [NEWLINE] (line' :: lines))
    with (line ++ NEWLINE :: join [NEWLINE] (line' :: lines)).
  rewrite !parseCSV_app_newline, IH. f_equal.
  apply parseCSV_app_blank_char. reflexivity.
Qed.

Section QuoteFree.

Lemma scanSpec_quote_free acc line :
  QUOTE ∉ line ->
  scanSpec false acc line =
  match split COMMA line with
  | piece :: pieces => trim (acc ++ piece) :: (trim <$> pieces)
  | [] => [trim acc]
  end.
Proof.
  revert acc. induction line as [|c line IH]; intros acc Hq.
  - simpl. by rewrite app_nil_r.
  - apply not_elem_of_cons in Hq as [Hc Hq]. cbn [scanSpec split].
    replace (c =? QUOTE)%N with false by (symmetry; by apply N.eqb_neq).
    pose proof (split_nonempty COMMA line) as Hne.
    destruct (c =? COMMA)%N; rewrite IH by done;
      destruct (split COMMA line) as [|p ps]; try done.
    + simpl. by rewrite app_nil_r.
    + by rewrite <- app_assoc.
Qed.

End QuoteFree.

(** X8: a line without a quote character is cut at every comma and each
    piece is trimmed. *)
Theorem X8_quote_free_line (line : jsstring) :
  QUOTE ∉ line -> parseLine line = trim <$> split COMMA line.
Proof.
  intros Hq. rewrite parseLine_scanSpec, scanSpec_quote_free by done.
  pose proof (split_nonempty COMMA line). by destruct (split COMMA line).
Qed.

Lemma X8_quote_free_line_witness :
  (QUOTE ∉ str " a , b,,c ") /\
  parseLine (str " a , b,,c ") = trim <$> split COMMA (str " a , b,,c ").
Proof.
  assert (H : QUOTE ∉ str " a , b,,c ").
  { apply (bool_decide_unpack _). vm_compute. exact I. }
  split; [exact H|]. exact (X8_quote_free_line _ H).
Defined.


(** * Further properties of the comparator *)

Section Records.

Variables (csv1 csv2 : Table) (file1Name file2Name : jsstring).

Lemma compareCSV_nil_iff :
  compareCSV csv1 csv2 file1Name file2Name = [] <-> csv1 = csv2.
Proof.
  split; [|intros ->; apply compareCSV_same].
  rewrite compareCSV_blocks. intros Hnil.
  apply app_eq_nil in Hnil as [Hcount Hrows].
  destruct (decide (length csv1 <> length csv2)) as [|Hlen]; [done|].
  apply dec_stable in Hlen. apply join_nil_1 in Hrows.
  rewrite Forall_fmap, Forall_forall in Hrows.
  apply list_eq. intros i. destruct (decide (i < length csv1)) as [Hi|Hi].
  - destruct (lookup_lt_is_Some_2 csv1 i Hi) as [row1 H1].
    destruct (lookup_lt_is_Some_2 csv2 i ltac:(lia)) as [row2 H2].
    rewrite H1, H2. f_equal.
    apply (rowDifferences_nil csv1 csv2 file1Name file2Name i); [done..|].
    apply Hrows, elem_of_seq. lia.
  - by rewrite !lookup_ge_None_2 by lia.
Qed.

Lemma cellAt_beyond (row : Row) colIndex :
  length row <= colIndex -> cellAt row colIndex = [].
Proof. intros H. unfold cellAt. by rewrite lookup_ge_None_2. Qed.

(** What one row contributes, case by case. *)
Lemma elem_of_rowDifferences d rowIndex :
  d ∈ rowDifferences csv1 csv2 file1Name file2Name rowIndex <->
  (csv1 !! rowIndex = None /\
   d = missing_row (rowIndex + 1) (missingRowMessage rowIndex file2Name)
         (default [] (csv2 !! rowIndex))) \/
  (exists row1, csv1 !! rowIndex = Some row1 /\ csv2 !! rowIndex = None /\
     d = missing_row (rowIndex + 1) (missingRowMessage rowIndex file1Name) row1) \/
  (exists row1 row2, csv1 !! rowIndex = Some row1 /\ csv2 !! rowIndex = Some row2 /\
     length row1 <> length row2 /\
     d = column_count (rowIndex + 1) (columnCountMessage rowIndex row1 row2)) \/
  (exists row1 row2 colIndex,
     csv1 !! rowIndex = Some row1 /\ csv2 !! rowIndex = Some row2 /\
     cellAt row1 colIndex <> cellAt row2 colIndex /\
     d = cell_difference (rowIndex + 1) (colIndex + 1)
           (cellAt row1 colIndex) (cellAt row2 colIndex)
           (cellMessage rowIndex colIndex (cellAt row1 colIndex) (cellAt row2 colIndex))).
Proof.
  destruct (csv1 !! rowIndex) as [row1|] eqn:H1.
  - destruct (csv2 !! rowIndex) as [row2|] eqn:H2.
    + rewrite (rowDifferences_both _ _ _ _ _ _ _ H1 H2), elem_of_app, elem_of_blocks.
      split.
      * intros [Hd|(c & Hc & Hd)].
        -- destruct (decide _) as [Hlen|]; [|by apply elem_of_nil in Hd].
           apply list_elem_of_singleton in Hd. right. right. left.
           by exists row1, row2.
        -- rewrite cellDifferences_eq in Hd.
           destruct (decide _) as [Hne|]; [|by apply elem_of_nil in Hd].
           apply list_elem_of_singleton in Hd. right. right. right.
           by exists row1, row2, c.
      * intros [[[=] _]|[(r1 & _ & [=] & _)|[(r1 & r2 & [= <-] & [= <-] & Hlen & ->)
                 |(r1 & r2 & c & [= <-] & [= <-] & Hne & ->)]]].
        -- left. rewrite decide_True by done. by apply list_elem_of_singleton.
        -- right. exists c. split.
           ++ apply elem_of_seq. split; [lia|]. simpl.
              destruct (decide (c < max (length row1) (length row2))) as [|Hge]; [done|].
              destruct Hne. rewrite !cellAt_beyond by lia. done.
           ++ rewrite cellDifferences_eq, decide_True by done.
              by apply list_elem_of_singleton.
    + rewrite (rowDifferences_only1 _ _ _ _ _ _ H1 H2), list_elem_of_singleton. split.
      * intros ->. right. left. by exists row1.
      * intros [[[=] _]|[(r1 & [= <-] & _ & ->)|[(r1 & r2 & _ & [=] & _)
                 |(r1 & r2 & c & _ & [=] & _)]]]. done.
  - rewrite (rowDifferences_only2 _ _ _ _ _ H1), list_elem_of_singleton. split.
    + intros ->. by left.
    + intros [[_ ->]|[(r1 & [=] & _)|[(r1 & r2 & [=] & _)|(r1 & r2 & c & [=] & _)]]].
      done.
Qed.

End Records.

Section Surplus.

Lemma blocks_singletons {A B} (g : B -> list A) (f : B -> A) l :
  (forall x, x ∈ l -> g x = [f x]) -> mjoin (g <$> l) = f <$> l.
Proof.
  induction l as [|x l IH]; intros Hg; [done|].
  rewrite !fmap_cons, (Hg x) by left.
  rewrite <- IH; [done|]. intros y Hy. apply Hg. by right.
Qed.

Lemma fmap_seq_imap {A B} (f : nat -> A -> B) (g : nat -> B) start (l : list A) :
  (forall k x, l !! k = Some x -> g (start + k) = f k x) ->
  g <$> seq start (length l) = imap f l.
Proof.
  intros Hg. apply list_eq. intros k.
  rewrite list_lookup_fmap, list_lookup_imap.
  destruct (l !! k) as [x|] eqn:Hk.
  - rewrite lookup_seq_lt by (by eapply lookup_lt_Some). simpl. f_equal. by apply Hg.
  - rewrite lookup_seq_ge; [done|]. by apply lookup_ge_None.
Qed.

End Surplus.

(** X10: when the second table is the first followed by further rows, the
    result is the row-count record and then one missing-row record for
    each further row, in order, naming the second file and carrying the
    row. *)
Theorem X10_surplus_in_second (t extras : Table) (file1Name file2Name : jsstring) :
  extras <> [] ->
  compareCSV t (t ++ extras) file1Name file2Name =
  row_count (rowCountMessage t (t ++ extras) file1Name file2Name) ::
  imap (fun k row =>
          missing_row (length t + k + 1)
            (missingRowMessage (length t + k) file2Name) row) extras.
Proof.
  intros Hne. assert (0 < length extras) by (destruct extras; simpl; [done|lia]).
  rewrite compareCSV_blocks, length_app, decide_True by lia.
  replace (max (length t) (length t + length extras))
    with (length t + length extras) by lia.
  rewrite seq_app, fmap_app, join_app. simpl. f_equal.
  rewrite blocks_nil.
  - simpl. rewrite (blocks_singletons _
      (fun i => missing_row (i + 1) (missingRowMessage i file2Name)
                  (default [] ((t ++ extras) !! i)))).
    + apply fmap_seq_imap. intros k row Hk.
      rewrite lookup_app_r by lia.
      replace (length t + k - length t) with k by lia. by rewrite Hk.
    + intros i Hi. apply elem_of_seq in Hi.
      apply rowDifferences_only2, lookup_ge_None_2. lia.
  - intros i Hi. apply elem_of_seq in Hi.
    destruct (lookup_lt_is_Some_2 t i ltac:(lia)) as [row Hrow].
    apply (rowDifferences_nil _ _ _ _ i row row); [done| |done].
    by apply lookup_app_l_Some.
Qed.

Lemma X10_surplus_in_second_witness :
  [[str "x"]; [str "y"; str "z"]] <> ([] : list (list (list N))) /\
  compareCSV [[str "a"]] ([[str "a"]] ++ [[str "x"]; [str "y"; str "z"]])
    (str "1.csv") (str "2.csv") =
  row_count (rowCountMessage [[str "a"]] ([[str "a"]] ++ [[str "x"]; [str "y"; str "z"]])
               (str "1.csv") (str "2.csv")) ::
  imap (fun k row =>
          missing_row (length [[str "a"]] + k + 1)
            (missingRowMessage (length [[str "a"]] + k) (str "2.csv")) row)
       [[str "x"]; [str "y"; str "z"]].
Proof.
  split; [done|].
  apply (X10_surplus_in_second [[str "a"]] [[str "x"]; [str "y"; str "z"]]). done.
Defined.

(** X11: when the first table is the second followed by further rows, the
    result is the row-count record and then one missing-row record for
    each further row, in order, naming the first file and carrying the
    row. *)
Theorem X11_surplus_in_first (t extras : Table) (file1Name file2Name : jsstring) :
  extras <> [] ->
  compareCSV (t ++ extras) t file1Name file2Name =
  row_count (rowCountMessage (t ++ extras) t file1Name file2Name) ::
  imap (fun k row =>
          missing_row (length t + k + 1)
            (missingRowMessage (length t + k) file1Name) row) extras.
Proof.
  intros Hne. assert (0 < length extras) by (destruct extras; simpl; [done|lia]).
  rewrite compareCSV_blocks, length_app, decide_True by lia.
  replace (max (length t + length extras) (length t))
    with (length t + length extras) by lia.
  rewrite seq_app, fmap_app, join_app. simpl. f_equal.
  rewrite blocks_nil.
  - simpl. rewrite (blocks_singletons _
      (fun i => missing_row (i + 1) (missingRowMessage i file1Name)
                  (default [] ((t ++ extras) !! i)))).
    + apply fmap_seq_imap. intros k row Hk.
      rewrite lookup_app_r by lia.
      replace (length t + k - length t) with k by lia. by rewrite Hk.
    + intros i Hi. apply elem_of_seq in Hi.
      destruct (lookup_lt_is_Some_2 (t ++ extras) i) as [row Hrow].
      { rewrite length_app. lia. }
      rewrite Hrow. simpl.
      apply rowDifferences_only1; [done|]. apply lookup_ge_None_2. lia.
  - intros i Hi. apply elem_of_seq in Hi.
    destruct (lookup_lt_is_Some_2 t i ltac:(lia)) as [row Hrow].
    apply (rowDifferences_nil _ _ _ _ i row row); [|done..].
    by apply lookup_app_l_Some.
Qed.

Lemma X11_surplus_in_first_witness :
  [[str "x"]; [str "y"; str "z"]] <> ([] : list (list (list N))) /\
  compareCSV ([[str "a"]] ++ [[str "x"]; [str "y"; str "z"]]) [[str "a"]]
    (str "1.csv") (str "2.csv") =
  row_count (rowCountMessage ([[str "a"]] ++ [[str "x"]; [str "y"; str "z"]]) [[str "a"]]
               (str "1.csv") (str "2.csv")) ::
  imap (fun k row =>
          missing_row (length [[str "a"]] + k + 1)
            (missingRowMessage (length [[str "a"]] + k) (str "1.csv")) row)
       [[str "x"]; [str "y"; str "z"]].
Proof.
  split; [done|].
  apply (X11_surplus_in_first [[str "a"]] [[str "x"]; [str "y"; str "z"]]). done.
Defined.

Lemma elem_of_compareCSV_cell (csv1 csv2 : Table) (file1Name file2Name : jsstring)
    (row column : nat) (value1 value2 message : jsstring) :
  cell_difference row column value1 value2 message
    ∈ compareCSV csv1 csv2 file1Name file2Name <->
  exists rowIndex colIndex row1 row2,
    row = rowIndex + 1 /\ column = colIndex + 1 /\
    csv1 !! rowIndex = Some row1 /\ csv2 !! rowIndex = Some row2 /\
    value1 = cellAt row1 colIndex /\ value2 = cellAt row2 colIndex /\
    value1 <> value2 /\
    message = cellMessage rowIndex colIndex value1 value2.
Proof.
  rewrite elem_of_compareCSV. split.
  - intros [[_ [=]]|(i & Hi & Hd)].
    apply elem_of_rowDifferences in Hd
      as [[_ [=]]|[(r1 & _ & _ & [=])|[(r1 & r2 & _ & _ & _ & [=])
          |(r1 & r2 & c & H1 & H2 & Hne & [= -> -> -> -> ->])]]].
    by exists i, c, r1, r2.
  - intros (i & c & r1 & r2 & -> & -> & H1 & H2 & -> & -> & Hne & ->). right.
    exists i. split; [apply lookup_lt_Some in H1; lia|].
    apply elem_of_rowDifferences. right. right. right. by exists r1, r2, c.
Qed.

(** X12: the cell records of the result are exactly those of the
    positions, in rows both tables have, where the two cells differ as
    strings, an absent cell counting as the empty string; each carries the
    1-based row and column and the two cells. *)
Theorem X12_cell_records (csv1 csv2 : Table) (file1Name file2Name : jsstring)
    (row column : nat) (value1 value2 message : jsstring) :
  cell_difference row column value1 value2 message
    ∈ compareCSV csv1 csv2 file1Name file2Name <->
  exists rowIndex colIndex row1 row2,
    row = rowIndex + 1 /\ column = colIndex + 1 /\
    csv1 !! rowIndex = Some row1 /\ csv2 !! rowIndex = Some row2 /\
    value1 = cellAt row1 colIndex /\ value2 = cellAt row2 colIndex /\
    value1 <> value2 /\
    message = cellMessage rowIndex colIndex value1 value2.
Proof. apply elem_of_compareCSV_cell. Qed.

(** X13: the column-count records of the result are exactly those of the
    rows both tables have with different numbers of cells. *)
Theorem X13_column_count_records (csv1 csv2 : Table) (file1Name file2Name : jsstring)
    (row : nat) (message : jsstring) :
  column_count row message ∈ compareCSV csv1 csv2 file1Name file2Name <->
  exists rowIndex row1 row2,
    row = rowIndex + 1 /\
    csv1 !! rowIndex = Some row1 /\ csv2 !! rowIndex = Some row2 /\
    length row1 <> length row2 /\
    message = columnCountMessage rowIndex row1 row2.
Proof.
  rewrite elem_of_compareCSV. split.
  - intros [[_ [=]]|(i & Hi & Hd)].
    apply elem_of_rowDifferences in Hd
      as [[_ [=]]|[(r1 & _ & _ & [=])|[(r1 & r2 & H1 & H2 & Hlen & [= -> ->])
          |(r1 & r2 & c & _ & _ & _ & [=])]]].
    by exists i, r1, r2.
  - intros (i & r1 & r2 & -> & H1 & H2 & Hlen & ->). right.
    exists i. split; [apply lookup_lt_Some in H1; lia|].
    apply elem_of_rowDifferences. right. right. left. by exists r1, r2.
Qed.

(** X14: the result has the row-count record exactly when the tables have
    different numbers of rows, and its missing-row records are exactly
    those of the rows only one table has: each names the file that has the
    row and carries the row. *)
Theorem X14_row_presence_records (csv1 csv2 : Table) (file1Name file2Name : jsstring) :
  (forall message,
     row_count message ∈ compareCSV csv1 csv2 file1Name file2Name <->
     length csv1 <> length csv2 /\
     message = rowCountMessage csv1 csv2 file1Name file2Name) /\
  (forall row message data,
     missing_row row message data ∈ compareCSV csv1 csv2 file1Name file2Name <->
     exists rowIndex,
       row = rowIndex + 1 /\
       ((csv1 !! rowIndex = None /\ csv2 !! rowIndex = Some data /\
         message = missingRowMessage rowIndex file2Name) \/
        (csv1 !! rowIndex = Some data /\ csv2 !! rowIndex = None /\
         message = missingRowMessage rowIndex file1Name))).
Proof.
  split.
  - intros message. rewrite elem_of_compareCSV. split.
    + intros [[Hlen [= ->]]|(i & _ & Hd)]; [done|].
      by apply rowDifferences_rowOf in Hd.
    + intros [Hlen ->]. by left.
  - intros row message data. rewrite elem_of_compareCSV. split.
    + intros [[_ [=]]|(i & Hi & Hd)].
      apply elem_of_rowDifferences in Hd
        as [[H1 [= -> -> ->]]|[(r1 & H1 & H2 & [= -> -> ->])
            |[(r1 & r2 & _ & _ & _ & [=])|(r1 & r2 & c & _ & _ & _ & [=])]]].
      * exists i. split; [done|]. left. split; [done|]. split; [|done].
        apply lookup_ge_None in H1.
        destruct (lookup_lt_is_Some_2 csv2 i ltac:(lia)) as [r2 H2].
        by rewrite H2.
      * exists i. split; [done|]. by right.
    + intros (i & -> & [(H1 & H2 & ->)|(H1 & H2 & ->)]); right; exists i.
      * split; [apply lookup_lt_Some in H2; lia|].
        apply elem_of_rowDifferences. left. by rewrite H2.
      * split; [apply lookup_lt_Some in H1; lia|].
        apply elem_of_rowDifferences. right. left. by exists data.
Qed.

(** X15: a row that differs from its counterpart only by empty cells at
    the end gives no cell record: when every row of the second table is
    the row of the first followed by empty cells, the result has no cell
    record at all. *)
Theorem X15_empty_padding_no_cell_record (csv1 csv2 : Table)
    (file1Name file2Name : jsstring) :
  (forall rowIndex row1 row2,
     csv1 !! rowIndex = Some row1 -> csv2 !! rowIndex = Some row2 ->
     exists k, row2 = row1 ++ replicate k []) ->
  Forall (fun d => match d with cell_difference _ _ _ _ _ => False | _ => True end)
    (compareCSV csv1 csv2 file1Name file2Name).
Proof.
  intros Hpad. apply Forall_forall. intros d Hd.
  destruct d as [| | |row column v1 v2 message]; try done.
  apply elem_of_compareCSV_cell in Hd.
  destruct Hd as (i & c & r1 & r2 & _ & _ & H1 & H2 & -> & -> & Hne & _).
  destruct (Hpad i r1 r2 H1 H2) as [k ->]. apply Hne. unfold cellAt.
  destruct (decide (c < length r1)) as [Hc|Hc].
  - by rewrite lookup_app_l.
  - rewrite lookup_app_r, (lookup_ge_None_2 r1) by lia. simpl.
    destruct (replicate k [] !! (c - length r1)) as [x|] eqn:Hx; [|done].
    apply lookup_replicate in Hx as [-> _]. done.
Qed.

Lemma X15_empty_padding_no_cell_record_witness :
  Forall (fun d => match d with cell_difference _ _ _ _ _ => False | _ => True end)
    (compareCSV [[str "a"; str "b"]] [[str "a"; str "b"; []; []]]
       (str "1.csv") (str "2.csv")) /\
  compareCSV [[str "a"; str "b"]] [[str "a"; str "b"; []; []]]
    (str "1.csv") (str "2.csv") <> [].
Proof.
  split; [|by vm_compute].
  apply X15_empty_padding_no_cell_record.
  intros [|i] row1 row2 H1 H2; [|done].
  injection H1 as <-. injection H2 as <-. by exists 2.
Defined.

Section Counting.

Lemma length_blocks {A B} (g g' : B -> list A) l :
  (forall x, length (g x) = length (g' x)) ->
  length (mjoin (g <$> l)) = length (mjoin (g' <$> l)).
Proof.
  intros Hg. induction l as [|x l IH]; [done|].
  rewrite !fmap_cons.
  change (length (g x ++ mjoin (g <$> l)) = length (g' x ++ mjoin (g' <$> l))).
  by rewrite !length_app, IH, Hg.
Qed.

Lemma length_cellDifferences_swap row1 row2 rowIndex rowIndex' colIndex :
  length (cellDifferences row1 row2 rowIndex colIndex) =
  length (cellDifferences row2 row1 rowIndex' colIndex).
Proof.
  rewrite !cellDifferences_eq.
  destruct (decide (cellAt row1 colIndex <> cellAt row2 colIndex)) as [H|H];
    destruct (decide (cellAt row2 colIndex <> cellAt row1 colIndex)) as [H'|H'];
    try done; exfalso; auto.
Qed.

Lemma length_rowDifferences_swap csv1 csv2 file1Name file2Name name1 name2 rowIndex :
  length (rowDifferences csv1 csv2 file1Name file2Name rowIndex) =
  length (rowDifferences csv2 csv1 name1 name2 rowIndex).
Proof.
  destruct (csv1 !! rowIndex) as [row1|] eqn:H1;
    destruct (csv2 !! rowIndex) as [row2|] eqn:H2.
  - rewrite (rowDifferences_both _ _ _ _ _ _ _ H1 H2),
      (rowDifferences_both _ _ _ _ _ _ _ H2 H1), !length_app.
    rewrite (Nat.max_comm (length row2)). f_equal.
    + destruct (decide (length row1 <> length row2)) as [H|H];
        destruct (decide (length row2 <> length row1)) as [H'|H']; try done; lia.
    + apply length_blocks. intros c. apply length_cellDifferences_swap.
  - by rewrite (rowDifferences_only1 _ _ _ _ _ _ H1 H2),
      (rowDifferences_only2 _ _ _ _ _ H2).
  - by rewrite (rowDifferences_only2 _ _ _ _ _ H1),
      (rowDifferences_only1 _ _ _ _ _ _ H2 H1).
  - by rewrite (rowDifferences_only2 _ _ _ _ _ H1),
      (rowDifferences_only2 _ _ _ _ _ H2).
Qed.

Lemma length_compareCSV_swap csv1 csv2 file1Name file2Name name1 name2 :
  length (compareCSV csv1 csv2 file1Name file2Name) =
  length (compareCSV csv2 csv1 name1 name2).
Proof.
  rewrite !compareCSV_blocks, !length_app, (Nat.max_comm (length csv2)). f_equal.
  - destruct (decide (length csv1 <> length csv2)) as [H|H];
      destruct (decide (length csv2 <> length csv1)) as [H'|H']; try done; lia.
  - apply length_blocks. intros i. apply length_rowDifferences_swap.
Qed.

End Counting.

(** X16: the number of differences depends neither on the order of the two
    tables nor on the file names. *)
Theorem X16_count_symmetric (csv1 csv2 : Table)
    (file1Name file2Name name1 name2 : jsstring) :
  length (compareCSV csv1 csv2 file1Name file2Name) =
  length (compareCSV csv2 csv1 name1 name2).
Proof. apply length_compareCSV_swap. Qed.

(** X17: every record that has a row has a 1-based one, at most the larger
    of the two numbers of rows. *)
Theorem X17_row_numbers_in_range (csv1 csv2 : Table) (file1Name file2Name : jsstring) :
  Forall (fun d =>
            match rowOf d with
            | Some row => 1 <= row <= max (length csv1) (length csv2)
            | None => True
            end)
    (compareCSV csv1 csv2 file1Name file2Name).
Proof.
  apply Forall_forall. intros d Hd.
  apply elem_of_compareCSV in Hd as [[_ ->]|(i & Hi & Hd)]; [done|].
  rewrite (rowDifferences_rowOf _ _ _ _ _ _ Hd). lia.
Qed.

(** * What is printed *)

Section Console.

Variables (csv1 csv2 : Table) (file1Name file2Name : jsstring).

(** The loop over the columns collects one note for each differing cell. *)
Lemma noteCell_fold row1 row2 cols st :
  foldl (noteCell row1 row2) st cols =
  let notes :=
    mjoin ((fun c => if decide (cellAt row1 c <> cellAt row2 c)
                     then [(c + 1, cellAt row1 c, cellAt row2 c)] else []) <$> cols) in
  (if decide (notes = []) then st.1 else true, st.2 ++ notes).
Proof.
  revert st. induction cols as [|c cols IH]; intros [b l]; simpl.
  - by rewrite app_nil_r.
  - rewrite IH. unfold noteCell. rewrite !cellOr_cellAt. simpl.
    destruct (decide (cellAt row1 c <> cellAt row2 c)) as [Hne|Heq]; simpl.
    + rewrite <- app_assoc. simpl. by destruct (decide _).
    + done.
Qed.

Lemma printRow_append console rowIndex :
  printRow csv1 csv2 file1Name file2Name console rowIndex =
  console ++ printRow csv1 csv2 file1Name file2Name [] rowIndex.
Proof.
  unfold printRow.
  destruct (csv1 !! rowIndex) as [row1|]; [|done].
  destruct (csv2 !! rowIndex) as [row2|]; [|done]. simpl.
  destruct (foldl _ _ _) as [[] notes]; [done|]. by rewrite app_nil_r.
Qed.

Lemma compareCSVConsole_blocks :
  compareCSVConsole csv1 csv2 file1Name file2Name =
  (foldl (printRow csv1 csv2 file1Name file2Name) [] [] ++
   (if decide (length csv1 <> length csv2) then
      consoleHeader csv1 csv2 file1Name file2Name ++
        [WARNING_SIGN ++ str "  Row count difference: " ++ file1Name ++ str " has " ++
           num (length csv1) ++ str " rows, " ++ file2Name ++ str " has " ++
           num (length csv2) ++ str " rows" ++ [NEWLINE]]
    else consoleHeader csv1 csv2 file1Name file2Name)) ++
  mjoin (printRow csv1 csv2 file1Name file2Name [] <$>
           seq 0 (max (length csv1) (length csv2))).
Proof.
  unfold compareCSVConsole. by rewrite (foldl_append _ _ printRow_append).
Qed.

(** What a row both tables have prints. *)
Lemma printRow_both rowIndex row1 row2 :
  csv1 !! rowIndex = Some row1 -> csv2 !! rowIndex = Some row2 ->
  printRow csv1 csv2 file1Name file2Name [] rowIndex =
  let notes :=
    mjoin ((fun c => if decide (cellAt row1 c <> cellAt row2 c)
                     then [(c + 1, cellAt row1 c, cellAt row2 c)] else []) <$>
           seq 0 (max (length row1) (length row2))) in
  if decide (notes = []) then []
  else [ARROWS ++ str " Row " ++ num (rowIndex + 1) ++ str " differences:"] ++
       (cellLine <$> notes) ++ [[]].
Proof.
  intros H1 H2. unfold printRow. rewrite H1, H2. simpl.
  rewrite noteCell_fold. simpl. by destruct (decide _).
Qed.

End Console.

(** X18: a difference in the number of cells alone is recorded but not
    printed: when the result has only column-count records, [compareCSV]
    prints its four header lines and nothing else. *)
Theorem X18_column_count_not_printed (csv1 csv2 : Table) (file1Name file2Name : jsstring) :
  Forall (fun d => match d with column_count _ _ => True | _ => False end)
    (compareCSV csv1 csv2 file1Name file2Name) ->
  compareCSVConsole csv1 csv2 file1Name file2Name =
  consoleHeader csv1 csv2 file1Name file2Name.
Proof.
  intros Honly. rewrite Forall_forall in Honly.
  assert (Hlen : length csv1 = length csv2).
  { destruct (decide (length csv1 = length csv2)) as [|Hne]; [done|].
    exfalso. apply (Honly (row_count (rowCountMessage csv1 csv2 file1Name file2Name))).
    apply elem_of_compareCSV. by left. }
  rewrite compareCSVConsole_blocks, decide_False by (intros H; by apply H).
  rewrite blocks_nil; [by rewrite app_nil_r|].
  intros i Hi. apply elem_of_seq in Hi.
  destruct (lookup_lt_is_Some_2 csv1 i ltac:(lia)) as [row1 H1].
  destruct (lookup_lt_is_Some_2 csv2 i ltac:(lia)) as [row2 H2].
  rewrite (printRow_both _ _ _ _ _ _ _ H1 H2). simpl.
  rewrite decide_True; [done|]. apply blocks_nil. intros c _.
  destruct (decide (cellAt row1 c <> cellAt row2 c)) as [Hne|]; [|done].
  exfalso.
  apply (Honly (cell_difference (i + 1) (c + 1) (cellAt row1 c) (cellAt row2 c)
                  (cellMessage i c (cellAt row1 c) (cellAt row2 c)))).
  apply elem_of_compareCSV_cell. by exists i, c, row1, row2.
Qed.

Lemma X18_column_count_not_printed_witness :
  compareCSV [[str "a"]] [[str "a"; []]] (str "1.csv") (str "2.csv") =
    [column_count 1 (columnCountMessage 0 [str "a"] [str "a"; []])] /\
  compareCSVConsole [[str "a"]] [[str "a"; []]] (str "1.csv") (str "2.csv") =
  consoleHeader [[str "a"]] [[str "a"; []]] (str "1.csv") (str "2.csv").
Proof.
  assert (H : compareCSV [[str "a"]] [[str "a"; []]] (str "1.csv") (str "2.csv") =
    [column_count 1 (columnCountMessage 0 [str "a"] [str "a"; []])])
    by (vm_compute; reflexivity).
  split; [exact H|].
  apply X18_column_count_not_printed. rewrite H. by repeat constructor.
Defined.

(** X19: every cell record of the result has its line on the console:
    the column and the two values of the record, as [compareCSV] prints
    them. *)
Theorem X19_cell_records_printed (csv1 csv2 : Table) (file1Name file2Name : jsstring)
    (row column : nat) (value1 value2 message : jsstring) :
  cell_difference row column value1 value2 message
    ∈ compareCSV csv1 csv2 file1Name file2Name ->
  cellLine (column, value1, value2)
    ∈ compareCSVConsole csv1 csv2 file1Name file2Name.
Proof.
  intros Hd. apply elem_of_compareCSV_cell in Hd
    as (i & c & row1 & row2 & -> & -> & H1 & H2 & -> & -> & Hne & _).
  rewrite compareCSVConsole_blocks, elem_of_app. right.
  apply elem_of_blocks. exists i. split.
  { apply elem_of_seq. apply lookup_lt_Some in H1. lia. }
  rewrite (printRow_both _ _ _ _ _ _ _ H1 H2). cbv zeta.
  assert (Hin : (c + 1, cellAt row1 c, cellAt row2 c) ∈
    mjoin ((fun c => if decide (cellAt row1 c <> cellAt row2 c)
                     then [(c + 1, cellAt row1 c, cellAt row2 c)] else []) <$>
           seq 0 (max (length row1) (length row2)))).
  { apply elem_of_blocks. exists c. split.
    - apply elem_of_seq. split; [lia|]. simpl.
      destruct (decide (c < max (length row1) (length row2))) as [|Hge]; [done|].
      destruct Hne. by rewrite !cellAt_beyond by lia.
    - rewrite decide_True by done. by apply list_elem_of_singleton. }
  destruct (decide _) as [Hnil|_].
  - rewrite Hnil in Hin. by apply elem_of_nil in Hin.
  - rewrite !elem_of_app. right. left.
    by apply (list_elem_of_fmap_2 cellLine).
Qed.

Lemma X19_cell_records_printed_witness :
  cell_difference 1 2 (str "30") (str "31") (cellMessage 0 1 (str "30") (str "31"))
    ∈ compareCSV [[str "Al"; str "30"]] [[str "Al"; str "31"]] (str "1.csv") (str "2.csv") /\
  cellLine (2, str "30", str "31")
    ∈ compareCSVConsole [[str "Al"; str "30"]] [[str "Al"; str "31"]]
        (str "1.csv") (str "2.csv").
Proof.
  assert (H : cell_difference 1 2 (str "30") (str "31")
                (cellMessage 0 1 (str "30") (str "31"))
    ∈ compareCSV [[str "Al"; str "30"]] [[str "Al"; str "31"]] (str "1.csv") (str "2.csv")).
  { vm_compute. left. }
  split; [exact H|]. exact (X19_cell_records_printed _ _ _ _ _ _ _ _ _ H).
Defined.

Section Summary.

Lemma tally_fields stats l :
  Stats.row_count (foldl tally stats l) =
    Stats.row_count stats + Stats.row_count (countStats l) /\
  Stats.missing_row (foldl tally stats l) =
    Stats.missing_row stats + Stats.missing_row (countStats l) /\
  Stats.column_count (foldl tally stats l) =
    Stats.column_count stats + Stats.column_count (countStats l) /\
  Stats.cell_difference (foldl tally stats l) =
    Stats.cell_difference stats + Stats.cell_difference (countStats l).
Proof.
  unfold countStats. revert stats. induction l as [|d l IH]; intros stats.
  - simpl. lia.
  - cbn [foldl].
    destruct (IH (tally stats d)) as (H1 & H2 & H3 & H4).
    destruct (IH (tally (Stats.mk 0 0 0 0) d)) as (G1 & G2 & G3 & G4).
    rewrite H1, H2, H3, H4, G1, G2, G3, G4. destruct d; simpl; lia.
Qed.

Lemma countStats_app l1 l2 :
  Stats.row_count (countStats (l1 ++ l2)) =
    Stats.row_count (countStats l1) + Stats.row_count (countStats l2) /\
  Stats.missing_row (countStats (l1 ++ l2)) =
    Stats.missing_row (countStats l1) + Stats.missing_row (countStats l2).
Proof.
  unfold countStats at 1 4. rewrite foldl_app.
  destruct (tally_fields (foldl tally (Stats.mk 0 0 0 0) l1) l2) as (H1 & H2 & _).
  by rewrite H1, H2.
Qed.

Lemma countStats_total l :
  Stats.row_count (countStats l) + Stats.missing_row (countStats l) +
  Stats.column_count (countStats l) + Stats.cell_difference (countStats l) =
  length l.
Proof.
  induction l as [|d l IH]; [done|].
  unfold countStats. cbn [foldl].
  destruct (tally_fields (tally (Stats.mk 0 0 0 0) d) l) as (H1 & H2 & H3 & H4).
  rewrite H1, H2, H3, H4. destruct d; simpl; lia.
Qed.

(** The counts of a list of blocks that each hold [k] missing-row records
    and no row-count record. *)
Lemma countStats_blocks {B} (g : B -> list Difference) (k : nat) l :
  (forall x, x ∈ l ->
     Stats.row_count (countStats (g x)) = 0 /\
     Stats.missing_row (countStats (g x)) = k) ->
  Stats.row_count (countStats (mjoin (g <$> l))) = 0 /\
  Stats.missing_row (countStats (mjoin (g <$> l))) = k * length l.
Proof.
  induction l as [|x l IH]; intros Hg; [simpl; split; [done|lia]|].
  rewrite fmap_cons.
  change (mjoin (g x :: (g <$> l))) with (g x ++ mjoin (g <$> l)).
  destruct (countStats_app (g x) (mjoin (g <$> l))) as [-> ->].
  destruct (Hg x ltac:(left)) as [-> ->].
  destruct IH as [-> ->]; [intros y Hy; apply Hg; by right|]. simpl. lia.
Qed.

Lemma countStats_rowDifferences csv1 csv2 file1Name file2Name rowIndex :
  Stats.row_count (countStats (rowDifferences csv1 csv2 file1Name file2Name rowIndex)) = 0 /\
  Stats.missing_row (countStats (rowDifferences csv1 csv2 file1Name file2Name rowIndex)) =
    match csv1 !! rowIndex, csv2 !! rowIndex with
    | Some _, Some _ => 0
    | _, _ => 1
    end.
Proof.
  destruct (csv1 !! rowIndex) as [row1|] eqn:H1.
  - destruct (csv2 !! rowIndex) as [row2|] eqn:H2.
    + assert (Hshape : Forall (fun d => match d with
                                        | column_count _ _ | cell_difference _ _ _ _ _ => True
                                        | _ => False
                                        end)
                (rowDifferences csv1 csv2 file1Name file2Name rowIndex)).
      { apply Forall_forall. intros d Hd. apply elem_of_rowDifferences in Hd
          as [[? _]|[(r1 & _ & ? & _)|[(r1 & r2 & _ & _ & _ & ->)
              |(r1 & r2 & c & _ & _ & _ & ->)]]]; congruence || done. }
      induction Hshape as [|d l Hd _ IH]; [done|].
      change (d :: l) with ([d] ++ l).
      destruct (countStats_app [d] l) as [-> ->]. destruct IH as [-> ->].
      by destruct d.
    + by rewrite (rowDifferences_only1 _ _ _ _ _ _ H1 H2).
  - by rewrite (rowDifferences_only2 _ _ _ _ _ H1).
Qed.

Lemma identicalLine_iff differences :
  identicalLine ∈ generateSummary differences <-> differences = [].
Proof.
  split; [|intros ->; right; left].
  destruct differences as [|d l]; [done|]. unfold generateSummary.
  rewrite decide_False by done. cbv zeta.
  repeat destruct (decide (0 < _));
    rewrite ?elem_of_app, ?list_elem_of_singleton; intros H;
    repeat (destruct H as [H|H]); discriminate H.
Qed.

End Summary.

(** X20: the four counts of the summary add up to the number of
    differences, the total it prints. *)
Theorem X20_summary_counts_add_up (differences : list Difference) :
  Stats.row_count (countStats differences) +
  Stats.missing_row (countStats differences) +
  Stats.column_count (countStats differences) +
  Stats.cell_difference (countStats differences) =
  length differences.
Proof. apply countStats_total. Qed.

(** X21: in the summary of a comparison the count of row-count differences
    is 1 when the numbers of rows differ and 0 otherwise, and the count of
    missing rows is the difference of the two numbers of rows. *)
Theorem X21_summary_of_comparison (csv1 csv2 : Table) (file1Name file2Name : jsstring) :
  Stats.row_count (countStats (compareCSV csv1 csv2 file1Name file2Name)) =
    (if decide (length csv1 <> length csv2) then 1 else 0) /\
  Stats.missing_row (countStats (compareCSV csv1 csv2 file1Name file2Name)) =
    max (length csv1) (length csv2) - min (length csv1) (length csv2).
Proof.
  rewrite compareCSV_blocks.
  set (n := min (length csv1) (length csv2)).
  set (m := max (length csv1) (length csv2)).
  replace m with (n + (m - n)) at 1 2 by lia.
  rewrite seq_app, fmap_app, join_app.
  destruct (countStats_app
    (if decide (length csv1 <> length csv2) then
       [row_count (rowCountMessage csv1 csv2 file1Name file2Name)] else [])
    (mjoin (rowDifferences csv1 csv2 file1Name file2Name <$> seq 0 n) ++
     mjoin (rowDifferences csv1 csv2 file1Name file2Name <$> seq (0 + n) (m - n))))
    as [-> ->].
  destruct (countStats_app
    (mjoin (rowDifferences csv1 csv2 file1Name file2Name <$> seq 0 n))
    (mjoin (rowDifferences csv1 csv2 file1Name file2Name <$> seq (0 + n) (m - n))))
    as [-> ->].
  destruct (countStats_blocks (rowDifferences csv1 csv2 file1Name file2Name) 0 (seq 0 n))
    as [-> ->].
  { intros i Hi. apply elem_of_seq in Hi.
    destruct (countStats_rowDifferences csv1 csv2 file1Name file2Name i) as [-> ->].
    destruct (lookup_lt_is_Some_2 csv1 i ltac:(lia)) as [row1 ->].
    by destruct (lookup_lt_is_Some_2 csv2 i ltac:(lia)) as [row2 ->]. }
  destruct (countStats_blocks (rowDifferences csv1 csv2 file1Name file2Name) 1
              (seq (0 + n) (m - n))) as [-> ->].
  { intros i Hi. apply elem_of_seq in Hi.
    destruct (countStats_rowDifferences csv1 csv2 file1Name file2Name i) as [-> ->].
    split; [done|].
    destruct (csv1 !! i) as [row1|] eqn:H1; [|done].
    destruct (csv2 !! i) as [row2|] eqn:H2; [|done].
    apply lookup_lt_Some in H1, H2. lia. }
  rewrite !length_seq. unfold n, m. destruct (decide _); simpl; split; lia.
Qed.

(** X22: the summary of a comparison says that the files are identical
    exactly when the two tables are equal. *)
Theorem X22_identical_iff_equal (csv1 csv2 : Table) (file1Name file2Name : jsstring) :
  identicalLine ∈ generateSummary (compareCSV csv1 csv2 file1Name file2Name) <->
  csv1 = csv2.
Proof. by rewrite identicalLine_iff, compareCSV_nil_iff. Qed.

(** X23: when there are differences the summary is its heading, the total,
    and between one and four lines of counts. *)
Theorem X23_summary_lines (differences : list Difference) :
  differences <> [] ->
  exists counts,
    generateSummary differences =
      [NEWLINE :: str "=== Summary ===";
       str "Total differences found: " ++ num (length differences)] ++ counts /\
    1 <= length counts <= 4.
Proof.
  intros Hne. pose proof (countStats_total differences) as Htotal.
  assert (0 < length differences) by (destruct differences; simpl; [done|lia]).
  unfold generateSummary. rewrite decide_False by lia. cbv zeta.
  set (heading := [NEWLINE :: str "=== Summary ==="] ++
                  [str "Total differences found: " ++ num (length differences)]).
  repeat destruct (decide (0 < _)); rewrite <- ?app_assoc;
    (eexists; split; [reflexivity|simpl; lia]).
Qed.

Lemma X23_summary_lines_witness :
  exists counts,
    generateSummary [row_count []; missing_row 2 [] []] =
      [NEWLINE :: str "=== Summary ===";
       str "Total differences found: " ++ num (length [row_count []; missing_row 2 [] []])] ++
      counts /\
    1 <= length counts <= 4.
Proof. apply X23_summary_lines. done. Defined.

(** * Further properties of a run *)

Section Runs.

Variable h : Host.

Lemma main_exits args : main h args = Exit 0 \/ main h args = Exit 1.
Proof.
  destruct (decide (length args < 2)) as [Hlt|Hge].
  { right. by apply main_usage. }
  destruct args as [|file1Path [|file2Path rest]]; [simpl in Hge; lia..|].
  rewrite main_inputs.
  destruct (existsSync h file1Path); simpl; [|by right].
  destruct (existsSync h file2Path); simpl; [|by right].
  destruct (readFileSync h file1Path) as [content1|]; simpl; [|by right].
  destruct (readFileSync h file2Path) as [content2|]; simpl; [|by right].
  assert (Hend : forall found : list Difference,
    Exit (A:=unit) (if decide (0 < length found) then 1 else 0) = Exit 0 \/
    Exit (A:=unit) (if decide (0 < length found) then 1 else 0) = Exit 1).
  { intros found. destruct (decide _); auto. }
  destruct (rest !! 0) as [[|c s]|]; simpl; [apply Hend| |apply Hend].
  unfold saveDifferencesToFile.
  destruct (writeFileSync h (c :: s) _) as [[]|]; simpl; [apply Hend|by right].
Qed.

Lemma main_two_inputs file1Path file2Path content1 content2 :
  existsSync h file1Path = true -> existsSync h file2Path = true ->
  readFileSync h file1Path = inl content1 ->
  readFileSync h file2Path = inl content2 ->
  main h [file1Path; file2Path] =
  Exit (if decide (parseCSV content1 = parseCSV content2) then 0 else 1).
Proof.
  intros E1 E2 R1 R2. rewrite main_inputs, E1, E2, R1, R2. simpl. f_equal.
  destruct (decide (parseCSV content1 = parseCSV content2)) as [Heq|Hne].
  - by rewrite Heq, compareCSV_same.
  - rewrite decide_True; [done|].
    destruct (compareCSV _ _ _ _) eqn:Hc; simpl; [|lia].
    by apply compareCSV_nil_iff in Hc.
Qed.

End Runs.

(** X24: [main] never returns and never lets an exception escape: every
    run ends in [process.exit] with code 0 or 1. *)
Theorem X24_always_exits (h : Host) (args : list jsstring) :
  main h args = Exit 0 \/ main h args = Exit 1.
Proof. apply main_exits. Qed.

(** X25: a run on two files that exist and are read, without an output
    file, exits with code 0 exactly when the two parsed tables are equal. *)
Theorem X25_exit_zero_iff_equal_tables (h : Host)
    (file1Path file2Path content1 content2 : jsstring) :
  existsSync h file1Path = true -> existsSync h file2Path = true ->
  readFileSync h file1Path = inl content1 ->
  readFileSync h file2Path = inl content2 ->
  (exitCode (main h [file1Path; file2Path]) = 0 <->
   parseCSV content1 = parseCSV content2).
Proof.
  intros E1 E2 R1 R2. rewrite (main_two_inputs h _ _ _ _ E1 E2 R1 R2).
  by destruct (decide _).
Qed.

Lemma X25_exit_zero_iff_equal_tables_witness :
  exitCode (main sampleHost [str "a.csv"; str "old.csv"]) = 0 <->
  parseCSV (str "id,name
1,Ada") = parseCSV (str "id,name
1,Eve").
Proof.
  apply (X25_exit_zero_iff_equal_tables sampleHost (str "a.csv") (str "old.csv"));
    reflexivity.
Defined.

(** X26: without an output file, the exit code does not depend on the
    order in which the two files are given. *)
Theorem X26_exit_code_symmetric (h : Host) (file1Path file2Path : jsstring) :
  exitCode (main h [file1Path; file2Path]) = exitCode (main h [file2Path; file1Path]).
Proof.
  destruct (existsSync h file1Path) eqn:E1; cycle 1.
  { rewrite !main_inputs, E1. simpl. by destruct (existsSync h file2Path). }
  destruct (existsSync h file2Path) eqn:E2; cycle 1.
  { by rewrite !main_inputs, E1, E2. }
  destruct (readFileSync h file1Path) as [content1|error1] eqn:R1; cycle 1.
  { rewrite !main_inputs, E1, E2, R1. simpl.
    by destruct (readFileSync h file2Path). }
  destruct (readFileSync h file2Path) as [content2|error2] eqn:R2; cycle 1.
  { by rewrite !main_inputs, E1, E2, R1, R2. }
  rewrite (main_two_inputs h _ _ _ _ E1 E2 R1 R2),
    (main_two_inputs h _ _ _ _ E2 E1 R2 R1).
  destruct (decide (parseCSV content1 = parseCSV content2));
    destruct (decide (parseCSV content2 = parseCSV content1)); try done; congruence.
Qed.





